(** * Call-Quality-Analyzer: the controller of [src/app/page.tsx]

    A shallow embedding of the logic of the [SalesCallAnalyzer] component:
    URL validation ([validateUrl]), the submit handler and its timer
    callback ([handleSubmit]), and the two exports ([handleDownload]).

    Conventions.
    - A JavaScript string is its sequence of UTF-16 code units, [list N].
    - The regular expression literal of [validateUrl] is a term of [regex];
      [RegExp.prototype.test] is the backtracking matcher of ECMAScript
      (continuation passing, greedy quantifiers, the empty-iteration check),
      without the [u], [m], [s], [g] and [y] flags, as in the source.
    - A React event handler reads the values of the render it closes over
      and enqueues state updates, which are all in place when it returns.
      A handler below takes that snapshot and runs in a state monad over
      the [World]: the component's state, the pending timers, the part of
      the DOM that [handleDownload] touches, and the trace of the calls
      made, in program order.
    - The page delivers one event at a time and runs its handler to the
      end ([step]); [reachable] worlds are those the page's own events
      lead to from the initial render. *)

From Stdlib Require Import String Ascii.
From Stdlib Require Import List Bool Arith NArith ZArith Lia.
From Stdlib Require DecimalFacts DecimalN.
Import ListNotations.
Open Scope string_scope.
Open Scope list_scope.

Set Implicit Arguments.

(* ================================================================= *)
(** ** JavaScript strings *)

Definition jsstring := list N.

(** A source literal without escapes, as code units. *)
Definition js (s : string) : jsstring :=
  map N_of_ascii (list_ascii_of_string s).

Definition LF : N := 10.
Definition CR : N := 13.
Definition LS : N := 8232.   (* U+2028 *)
Definition PS : N := 8233.   (* U+2029 *)

(** ECMAScript LineTerminator code points, the ones [.] refuses. *)
Definition isLineTerminator (c : N) : bool :=
  (c =? LF)%N || (c =? CR)%N || (c =? LS)%N || (c =? PS)%N.

(** *** Text to bytes *)

Definition leading_surrogate (c : N) : bool :=
  (55296 <=? c)%N && (c <=? 56319)%N.

Definition trailing_surrogate (c : N) : bool :=
  (56320 <=? c)%N && (c <=? 57343)%N.

(** The code points of a string as the conversion to a USVString gives
    them: a surrogate pair is one code point, a lone surrogate is replaced
    by U+FFFD. *)
Fixpoint code_points (s : jsstring) : list N :=
  match s with
  | [] => []
  | c :: s' =>
      if leading_surrogate c then
        match s' with
        | c2 :: s'' =>
            if trailing_surrogate c2
            then (65536 + (c - 55296) * 1024 + (c2 - 56320))%N
                   :: code_points s''
            else 65533%N :: code_points s'
        | [] => [65533%N]
        end
      else if trailing_surrogate c then 65533%N :: code_points s'
      else c :: code_points s'
  end.

(** UTF-8 of one code point. *)
Definition utf8_of_point (p : N) : list N :=
  if (p <? 128)%N then [p]
  else if (p <? 2048)%N then [192 + p / 64; 128 + p mod 64]%N
  else if (p <? 65536)%N
  then [224 + p / 4096; 128 + (p / 64) mod 64; 128 + p mod 64]%N
  else [240 + p / 262144; 128 + (p / 4096) mod 64;
        128 + (p / 64) mod 64; 128 + p mod 64]%N.

(** The bytes a [Blob] holds for a string part. *)
Definition utf8_encode (s : jsstring) : list N :=
  flat_map utf8_of_point (code_points s).

(** UTF-16 of one code point. *)
Definition utf16_of_point (p : N) : jsstring :=
  if (p <? 65536)%N then [p]
  else [55296 + (p - 65536) / 1024; 56320 + (p - 65536) mod 1024]%N.

(** A string of 16-bit code units without a lone surrogate. *)
Fixpoint well_formed_utf16 (s : jsstring) : bool :=
  match s with
  | [] => true
  | c :: s' =>
      if leading_surrogate c then
        match s' with
        | c2 :: s'' => trailing_surrogate c2 && well_formed_utf16 s''
        | [] => false
        end
      else negb (trailing_surrogate c) && (c <? 65536)%N
           && well_formed_utf16 s'
  end.

(* ================================================================= *)
(** ** Regular expressions *)

Module RegExp.

(** The pattern syntax the source uses.  A capturing group only records a
    capture, which [test] never reads, so a group is its body. *)
Inductive regex : Type :=
| Empty                         (* the empty pattern *)
| Chr (c : N)                   (* a literal or escaped character *)
| Dot                           (* [.] *)
| Bol                           (* [^] *)
| Eol                           (* [$] *)
| Seq (r1 r2 : regex)           (* concatenation *)
| Alt (r1 r2 : regex)           (* [r1|r2] *)
| Opt (r : regex)               (* [r?], greedy *)
| Plus (r : regex).             (* [r+], greedy *)

Fixpoint lit (l : jsstring) : regex :=
  match l with
  | [] => Empty
  | c :: l' => Seq (Chr c) (lit l')
  end.

(** A match state: the end index reached and the input from there on. *)
Record MatchState := mkState { endIndex : nat; rest : jsstring }.

Definition Continuation := MatchState -> bool.

Section Matcher.

(** Bound on the iterations of a quantifier: every iteration after the
    first must consume input, so the input length plus one is enough. *)
Variable fuel : nat.

(** RepeatMatcher with min = 0 and max = infinity, greedy. *)
Fixpoint repeat0 (m : Continuation -> MatchState -> bool) (n : nat)
         (k : Continuation) (x : MatchState) : bool :=
  match n with
  | O => k x
  | S n' =>
      m (fun y => if Nat.eqb (endIndex y) (endIndex x) then false
                  else repeat0 m n' k y) x
      || k x
  end.

Fixpoint matcher (r : regex) (k : Continuation) (x : MatchState) : bool :=
  match r with
  | Empty => k x
  | Chr c =>
      match rest x with
      | [] => false
      | ch :: tl => if (ch =? c)%N then k (mkState (S (endIndex x)) tl)
                    else false
      end
  | Dot =>
      match rest x with
      | [] => false
      | ch :: tl => if isLineTerminator ch then false
                    else k (mkState (S (endIndex x)) tl)
      end
  | Bol => if Nat.eqb (endIndex x) 0 then k x else false
  | Eol => match rest x with [] => k x | _ :: _ => false end
  | Seq r1 r2 => matcher r1 (fun y => matcher r2 k y) x
  | Alt r1 r2 => matcher r1 k x || matcher r2 k x
  | Opt r' =>
      matcher r' (fun y => if Nat.eqb (endIndex y) (endIndex x) then false
                           else k y) x
      || k x
  | Plus r' => matcher r' (fun y => repeat0 (matcher r') fuel k y) x
  end.

End Matcher.

(** RegExpBuiltinExec for a pattern without [g] and [y]: try the match at
    index 0, then at every later index up to the length of the input. *)
Fixpoint exec_from (fuel : nat) (r : regex) (i : nat) (s : jsstring) : bool :=
  matcher fuel r (fun _ => true) (mkState i s)
  || match s with
     | [] => false
     | _ :: tl => exec_from fuel r (S i) tl
     end.

Definition test (r : regex) (input : jsstring) : bool :=
  exec_from (S (length input)) r 0 input.

End RegExp.

Import RegExp.

(* ================================================================= *)
(** ** [validateUrl] *)

(** [/^(https?:\/\/)?(www\.)?(youtube\.com|youtu\.?be)\/.+$/] *)
Definition youtubeRegex : regex :=
  Seq Bol
 (Seq (Opt (Seq (lit (js "http")) (Seq (Opt (Chr 115)) (lit (js "://")))))
 (Seq (Opt (lit (js "www.")))
 (Seq (Alt (lit (js "youtube.com"))
           (Seq (lit (js "youtu")) (Seq (Opt (Chr 46)) (lit (js "be")))))
 (Seq (Chr 47)
 (Seq (Plus Dot)
      Eol))))).

Definition validateUrl (input : jsstring) : bool :=
  test youtubeRegex input.


(* ================================================================= *)
(** ** Data model *)

Inductive Sentiment := positive | neutral | negative.

(** [interface AnalysisResult].  The number fields hold integers, the
    values the data model gives them. *)
Record AnalysisResult := mkResult {
  talkTimeRatio : Z;
  questionsCount : Z;
  longestMonologue : Z;
  sentiment : Sentiment;
  insights : list jsstring;
  transcript : jsstring
}.

(** The four [useState] cells of the component. *)
Record State := mkUi {
  url : jsstring;
  isLoading : bool;
  result : option AnalysisResult;
  error : option jsstring
}.

Definition initialState : State :=
  {| url := []; isLoading := false; result := None; error := None |}.

(** The argument of [handleDownload]. *)
Inductive DownloadType := Tjson | Ttranscript.

(* ================================================================= *)
(** ** The browser around the component *)

Record Blob := mkBlob { blobParts : list jsstring; blobType : jsstring }.

(** An [<a>] element; [href] holds the identifier of an object URL. *)
Record Anchor := mkAnchor { href : option nat; download : option jsstring }.

(** A file handed to the environment's file-saving mechanism.  The content
    is the bytes of the blob: the UTF-8 encoding of its string parts. *)
Record Download := mkDownload {
  fileName : jsstring;
  mimeType : jsstring;
  content : list N
}.

(** The only function ever passed to [setTimeout]. *)
Inductive Callback := mockResponse.

Record Timer := mkTimer { timerId : nat; callback : Callback; delay : Z }.

(** The calls a handler makes, for the trace. *)
Inductive Effect :=
| EpreventDefault
| EsetUrl (u : jsstring)
| EsetError (e : option jsstring)
| EsetResult (r : option AnalysisResult)
| EsetIsLoading (b : bool)
| EsetTimeout (cb : Callback) (ms : Z)
| EcreateObjectURL (b : Blob)
| EcreateElement
| EsetHref (a u : nat)
| EsetDownload (a : nat) (name : jsstring)
| EappendChild (a : nat)
| Eclick (a : nat)
| EremoveChild (a : nat)
| ErevokeObjectURL (u : nat).

Record World := mkWorld {
  ui : State;                       (* the component's state *)
  timers : list Timer;              (* pending timers, oldest first *)
  nextTimer : nat;
  objectURLs : list (nat * Blob);   (* the blob URL store *)
  nextURL : nat;
  elements : list (nat * Anchor);   (* created elements *)
  nextElement : nat;
  body : list nat;                  (* children of [document.body] *)
  downloads : list Download;        (* files saved so far *)
  trace : list Effect               (* calls made so far, oldest first *)
}.

Definition initialWorld : World :=
  {| ui := initialState; timers := []; nextTimer := 0;
     objectURLs := []; nextURL := 0; elements := []; nextElement := 0;
     body := []; downloads := []; trace := [] |}.

Definition with_ui (f : State -> State) (w : World) : World :=
  mkWorld (f (ui w)) (timers w) (nextTimer w) (objectURLs w) (nextURL w)
          (elements w) (nextElement w) (body w) (downloads w) (trace w).

Definition with_timers (ts : list Timer) (n : nat) (w : World) : World :=
  mkWorld (ui w) ts n (objectURLs w) (nextURL w)
          (elements w) (nextElement w) (body w) (downloads w) (trace w).

Definition with_objectURLs (us : list (nat * Blob)) (n : nat) (w : World) : World :=
  mkWorld (ui w) (timers w) (nextTimer w) us n
          (elements w) (nextElement w) (body w) (downloads w) (trace w).

Definition with_elements (es : list (nat * Anchor)) (n : nat) (w : World) : World :=
  mkWorld (ui w) (timers w) (nextTimer w) (objectURLs w) (nextURL w)
          es n (body w) (downloads w) (trace w).

Definition with_body (b : list nat) (w : World) : World :=
  mkWorld (ui w) (timers w) (nextTimer w) (objectURLs w) (nextURL w)
          (elements w) (nextElement w) b (downloads w) (trace w).

Definition with_downloads (d : list Download) (w : World) : World :=
  mkWorld (ui w) (timers w) (nextTimer w) (objectURLs w) (nextURL w)
          (elements w) (nextElement w) (body w) d (trace w).

Definition logged (e : Effect) (w : World) : World :=
  mkWorld (ui w) (timers w) (nextTimer w) (objectURLs w) (nextURL w)
          (elements w) (nextElement w) (body w) (downloads w) (trace w ++ [e]).

(** Association lists keyed by identifiers. *)
Fixpoint lookup {A} (k : nat) (l : list (nat * A)) : option A :=
  match l with
  | [] => None
  | (k', v) :: l' => if Nat.eqb k k' then Some v else lookup k l'
  end.

Fixpoint update {A} (k : nat) (f : A -> A) (l : list (nat * A)) : list (nat * A) :=
  match l with
  | [] => []
  | (k', v) :: l' =>
      if Nat.eqb k k' then (k', f v) :: l' else (k', v) :: update k f l'
  end.

Fixpoint remove_key {A} (k : nat) (l : list (nat * A)) : list (nat * A) :=
  match l with
  | [] => []
  | (k', v) :: l' =>
      if Nat.eqb k k' then remove_key k l' else (k', v) :: remove_key k l'
  end.

(* ================================================================= *)
(** ** Handlers as state transformers *)

Definition M (A : Type) : Type := World -> A * World.

Definition ret {A} (a : A) : M A := fun w => (a, w).

Definition bind {A B} (m : M A) (k : A -> M B) : M B :=
  fun w => let (a, w') := m w in k a w'.

Declare Scope handler_scope.
Delimit Scope handler_scope with handler.
Notation "x <- m ;; k" := (bind m (fun x => k))
  (at level 61, m at next level, right associativity) : handler_scope.
Notation "m ;; k" := (bind m (fun _ => k))
  (at level 61, right associativity) : handler_scope.
Open Scope handler_scope.

Definition exec {A} (m : M A) (w : World) : World := snd (m w).

Definition act (e : Effect) (f : World -> World) : M unit :=
  fun w => (tt, f (logged e w)).

(** State setters: the update is applied to the cell; the handler keeps
    reading the snapshot it was created with. *)
Definition preventDefault : M unit := act EpreventDefault (fun w => w).

Definition setUrl (u : jsstring) : M unit :=
  act (EsetUrl u)
      (with_ui (fun s => mkUi u (isLoading s) (result s) (error s))).

Definition setError (e : option jsstring) : M unit :=
  act (EsetError e)
      (with_ui (fun s => mkUi (url s) (isLoading s) (result s) e)).

Definition setResult (r : option AnalysisResult) : M unit :=
  act (EsetResult r)
      (with_ui (fun s => mkUi (url s) (isLoading s) r (error s))).

Definition setIsLoading (b : bool) : M unit :=
  act (EsetIsLoading b)
      (with_ui (fun s => mkUi (url s) b (result s) (error s))).

Definition setTimeout (cb : Callback) (ms : Z) : M nat :=
  fun w =>
    let id := nextTimer w in
    (id, with_timers (timers w ++ [mkTimer id cb ms]) (S id)
                     (logged (EsetTimeout cb ms) w)).

Definition createObjectURL (b : Blob) : M nat :=
  fun w =>
    let u := nextURL w in
    (u, with_objectURLs ((u, b) :: objectURLs w) (S u)
                        (logged (EcreateObjectURL b) w)).

Definition revokeObjectURL (u : nat) : M unit :=
  act (ErevokeObjectURL u)
      (fun w => with_objectURLs (remove_key u (objectURLs w)) (nextURL w) w).

Definition createElement_a : M nat :=
  fun w =>
    let a := nextElement w in
    (a, with_elements ((a, mkAnchor None None) :: elements w) (S a)
                      (logged EcreateElement w)).

Definition set_href (a u : nat) : M unit :=
  act (EsetHref a u)
      (fun w => with_elements
                  (update a (fun e => mkAnchor (Some u) (download e)) (elements w))
                  (nextElement w) w).

Definition set_download (a : nat) (name : jsstring) : M unit :=
  act (EsetDownload a name)
      (fun w => with_elements
                  (update a (fun e => mkAnchor (href e) (Some name)) (elements w))
                  (nextElement w) w).

Definition appendChild (a : nat) : M unit :=
  act (EappendChild a) (fun w => with_body (body w ++ [a]) w).

Definition removeChild (a : nat) : M unit :=
  act (EremoveChild a)
      (fun w => with_body (filter (fun x => negb (Nat.eqb x a)) (body w)) w).

(** Activation of an anchor that carries a [download] attribute: the
    resource behind [href] is saved under the attribute's name. *)
Definition saved_by_click (a : nat) (w : World) : option Download :=
  match lookup a (elements w) with
  | Some (mkAnchor (Some u) (Some name)) =>
      match lookup u (objectURLs w) with
      | Some b => Some (mkDownload name (blobType b)
                                   (concat (map utf8_encode (blobParts b))))
      | None => None
      end
  | _ => None
  end.

Definition click (a : nat) : M unit :=
  act (Eclick a)
      (fun w => match saved_by_click a w with
                | Some d => with_downloads (downloads w ++ [d]) w
                | None => w
                end).

(* ================================================================= *)
(** ** JSON *)

Module JSON.

(** ECMAScript values that [JSON.stringify] and [JSON.parse] exchange here.
    A number is an integer (the model has no fractions); an object is the
    list of its own properties in [OwnPropertyKeys] order, which is creation
    order for keys that are not array indices. *)
Unset Elimination Schemes.
Inductive value : Type :=
| Null
| Bool (b : bool)
| Num (z : Z)
| Str (s : jsstring)
| Arr (l : list value)
| Obj (l : list (jsstring * value)).
Set Elimination Schemes.

(** *** Numbers *)

Fixpoint uint_units (d : Decimal.uint) : jsstring :=
  match d with
  | Decimal.Nil => []
  | Decimal.D0 d' => 48%N :: uint_units d'
  | Decimal.D1 d' => 49%N :: uint_units d'
  | Decimal.D2 d' => 50%N :: uint_units d'
  | Decimal.D3 d' => 51%N :: uint_units d'
  | Decimal.D4 d' => 52%N :: uint_units d'
  | Decimal.D5 d' => 53%N :: uint_units d'
  | Decimal.D6 d' => 54%N :: uint_units d'
  | Decimal.D7 d' => 55%N :: uint_units d'
  | Decimal.D8 d' => 56%N :: uint_units d'
  | Decimal.D9 d' => 57%N :: uint_units d'
  end.

(** Number::toString on a safe integer (at most 2^53 - 1 in magnitude):
    the decimal digits, with a sign.  Beyond that range a JavaScript number
    is not every integer and prints rounded or with an exponent, so every
    statement on a result's numbers below is made for safe integers. *)
Definition number_to_string (z : Z) : jsstring :=
  if (z <? 0)%Z then 45%N :: uint_units (N.to_uint (Z.to_N (- z)))
  else uint_units (N.to_uint (Z.to_N z)).

Definition digit_of (c : N) : option (Decimal.uint -> Decimal.uint) :=
  if (c =? 48)%N then Some Decimal.D0 else
  if (c =? 49)%N then Some Decimal.D1 else
  if (c =? 50)%N then Some Decimal.D2 else
  if (c =? 51)%N then Some Decimal.D3 else
  if (c =? 52)%N then Some Decimal.D4 else
  if (c =? 53)%N then Some Decimal.D5 else
  if (c =? 54)%N then Some Decimal.D6 else
  if (c =? 55)%N then Some Decimal.D7 else
  if (c =? 56)%N then Some Decimal.D8 else
  if (c =? 57)%N then Some Decimal.D9 else None.

Definition is_digit (c : N) : bool :=
  match digit_of c with Some _ => true | None => false end.

Fixpoint read_digits (s : jsstring) : Decimal.uint * jsstring :=
  match s with
  | [] => (Decimal.Nil, [])
  | c :: s' =>
      match digit_of c with
      | Some d => let (ds, r) := read_digits s' in (d ds, r)
      | None => (Decimal.Nil, s)
      end
  end.

(** Whether a fraction or an exponent follows: such a number is not an
    integer literal, and the model gives no value to it. *)
Definition continues_number (s : jsstring) : bool :=
  match s with
  | c :: _ => (c =? 46)%N || (c =? 101)%N || (c =? 69)%N
  | [] => false
  end.

(** JSONNumber without fraction and exponent: [0] or a digit run that does
    not start with [0]. *)
Definition parse_nat (s : jsstring) : option (N * jsstring) :=
  match s with
  | c :: s' =>
      if (c =? 48)%N then
        match s' with
        | c' :: _ => if is_digit c' then None
                     else if continues_number s' then None else Some (0%N, s')
        | [] => Some (0%N, s')
        end
      else if is_digit c then
        let (ds, r) := read_digits s in
        if continues_number r then None else Some (N.of_uint ds, r)
      else None
  | [] => None
  end.

Definition parse_number (s : jsstring) : option (Z * jsstring) :=
  match s with
  | c :: s' =>
      if (c =? 45)%N then
        match parse_nat s' with
        | Some (n, r) => Some ((- Z.of_N n)%Z, r)
        | None => None
        end
      else
        match parse_nat s with
        | Some (n, r) => Some (Z.of_N n, r)
        | None => None
        end
  | [] => None
  end.

(** *** Strings *)

Definition hex_digit (n : N) : N :=
  if (n <? 10)%N then (48 + n)%N else (87 + n)%N.

(** UnicodeEscape: [\u] and four lowercase hexadecimal digits. *)
Definition unicode_escape (c : N) : jsstring :=
  [92; 117;
   hex_digit ((c / 4096) mod 16); hex_digit ((c / 256) mod 16);
   hex_digit ((c / 16) mod 16); hex_digit (c mod 16)]%N.

Definition is_leading_surrogate (c : N) : bool :=
  (55296 <=? c)%N && (c <=? 56319)%N.

Definition is_trailing_surrogate (c : N) : bool :=
  (56320 <=? c)%N && (c <=? 57343)%N.

(** One code point that is not a leading surrogate, by the table of
    QuoteJSONString. *)
Definition escape_unit (c : N) : jsstring :=
  if (c =? 8)%N then [92; 98]%N else
  if (c =? 9)%N then [92; 116]%N else
  if (c =? 10)%N then [92; 110]%N else
  if (c =? 12)%N then [92; 102]%N else
  if (c =? 13)%N then [92; 114]%N else
  if (c =? 34)%N then [92; 34]%N else
  if (c =? 92)%N then [92; 92]%N else
  if (c <? 32)%N || is_trailing_surrogate c then unicode_escape c
  else [c].

(** The code points of the string, in order: a surrogate pair goes out as
    it is, a lone surrogate escaped. *)
Fixpoint quote_units (s : jsstring) : jsstring :=
  match s with
  | [] => []
  | c :: s' =>
      if is_leading_surrogate c then
        match s' with
        | c2 :: s'' =>
            if is_trailing_surrogate c2 then c :: c2 :: quote_units s''
            else unicode_escape c ++ quote_units s'
        | [] => unicode_escape c
        end
      else escape_unit c ++ quote_units s'
  end.

Definition QuoteJSONString (s : jsstring) : jsstring :=
  34%N :: quote_units s ++ [34%N].

Definition hex_value (c : N) : option N :=
  if (48 <=? c)%N && (c <=? 57)%N then Some (c - 48)%N else
  if (97 <=? c)%N && (c <=? 102)%N then Some (c - 87)%N else
  if (65 <=? c)%N && (c <=? 70)%N then Some (c - 55)%N else None.

Definition hex4 (h1 h2 h3 h4 : N) : option N :=
  match hex_value h1, hex_value h2, hex_value h3, hex_value h4 with
  | Some a, Some b, Some c, Some d => Some (a * 4096 + b * 256 + c * 16 + d)%N
  | _, _, _, _ => None
  end.

(** JSONStringCharacters after a backslash, other than [u]. *)
Definition simple_escape (e : N) : option N :=
  if (e =? 34)%N then Some 34%N else
  if (e =? 92)%N then Some 92%N else
  if (e =? 47)%N then Some 47%N else
  if (e =? 98)%N then Some 8%N else
  if (e =? 102)%N then Some 12%N else
  if (e =? 110)%N then Some 10%N else
  if (e =? 114)%N then Some 13%N else
  if (e =? 116)%N then Some 9%N else None.

Definition consed (c : N) (r : option (jsstring * jsstring))
  : option (jsstring * jsstring) :=
  match r with
  | Some (s, rest) => Some (c :: s, rest)
  | None => None
  end.

(** The characters of a JSON string after its opening quote, up to and
    including the closing one. *)
Fixpoint parse_chars (s : jsstring) : option (jsstring * jsstring) :=
  match s with
  | [] => None
  | c :: s' =>
      if (c =? 34)%N then Some ([], s')
      else if (c =? 92)%N then
        match s' with
        | [] => None
        | e :: s'' =>
            if (e =? 117)%N then
              match s'' with
              | h1 :: h2 :: h3 :: h4 :: s3 =>
                  match hex4 h1 h2 h3 h4 with
                  | Some n => consed n (parse_chars s3)
                  | None => None
                  end
              | _ => None
              end
            else
              match simple_escape e with
              | Some ch => consed ch (parse_chars s'')
              | None => None
              end
        end
      else if (c <? 32)%N then None
      else consed c (parse_chars s')
  end.

(** *** [JSON.stringify] *)

Fixpoint join (sep : jsstring) (l : list jsstring) : jsstring :=
  match l with
  | [] => []
  | [x] => x
  | x :: l' => x ++ sep ++ join sep l'
  end.

(** The brackets around a non-empty list of serialized parts, with the
    current indentation [stepback] and the gap. *)
Definition wrap (opening closing : N) (gap stepback : jsstring)
           (partial : list jsstring) : jsstring :=
  match partial with
  | [] => [opening; closing]
  | _ :: _ =>
      match gap with
      | [] => opening :: join [44%N] partial ++ [closing]
      | _ :: _ =>
          let indent := stepback ++ gap in
          opening :: LF :: indent
            ++ join (44%N :: LF :: indent) partial
            ++ LF :: stepback ++ [closing]
      end
  end.

(** SerializeJSONProperty, SerializeJSONArray and SerializeJSONObject. *)
Fixpoint serialize (gap indent : jsstring) (v : value) : jsstring :=
  match v with
  | Null => js "null"
  | Bool true => js "true"
  | Bool false => js "false"
  | Num z => number_to_string z
  | Str s => QuoteJSONString s
  | Arr l =>
      wrap 91 93 gap indent (map (serialize gap (indent ++ gap)) l)
  | Obj l =>
      wrap 123 125 gap indent
        (map (fun kv : jsstring * value =>
                let (k, x) := kv in
                QuoteJSONString k ++ 58%N
                  :: (match gap with [] => [] | _ :: _ => [32%N] end)
                  ++ serialize gap (indent ++ gap) x) l)
  end.

(** [JSON.stringify(v, null, space)] for a numeric [space]. *)
Definition stringify (v : value) (space : nat) : jsstring :=
  serialize (repeat 32%N (Nat.min 10 space)) [] v.

(** *** [JSON.parse] *)

Definition is_ws (c : N) : bool :=
  (c =? 9)%N || (c =? 10)%N || (c =? 13)%N || (c =? 32)%N.

Fixpoint skip_ws (s : jsstring) : jsstring :=
  match s with
  | c :: s' => if is_ws c then skip_ws s' else s
  | [] => []
  end.

Fixpoint strip_prefix (p s : jsstring) : option jsstring :=
  match p, s with
  | [], _ => Some s
  | a :: p', b :: s' => if (a =? b)%N then strip_prefix p' s' else None
  | _ :: _, [] => None
  end.

Fixpoint parse_value (fuel : nat) (s : jsstring) {struct fuel}
  : option (value * jsstring) :=
  match fuel with
  | O => None
  | S f =>
      match skip_ws s with
      | [] => None
      | c :: r =>
          if (c =? 34)%N then
            match parse_chars r with
            | Some (str, r') => Some (Str str, r')
            | None => None
            end
          else if (c =? 91)%N then
            match skip_ws r with
            | c' :: r' =>
                if (c' =? 93)%N then Some (Arr [], r')
                else match parse_elements f r with
                     | Some (vs, r'') => Some (Arr vs, r'')
                     | None => None
                     end
            | [] => None
            end
          else if (c =? 123)%N then
            match skip_ws r with
            | c' :: r' =>
                if (c' =? 125)%N then Some (Obj [], r')
                else match parse_members f r with
                     | Some (ms, r'') => Some (Obj ms, r'')
                     | None => None
                     end
            | [] => None
            end
          else if (c =? 110)%N then
            match strip_prefix (js "ull") r with
            | Some r' => Some (Null, r')
            | None => None
            end
          else if (c =? 116)%N then
            match strip_prefix (js "rue") r with
            | Some r' => Some (Bool true, r')
            | None => None
            end
          else if (c =? 102)%N then
            match strip_prefix (js "alse") r with
            | Some r' => Some (Bool false, r')
            | None => None
            end
          else
            match parse_number (c :: r) with
            | Some (z, r') => Some (Num z, r')
            | None => None
            end
      end
  end

with parse_elements (fuel : nat) (s : jsstring) {struct fuel}
  : option (list value * jsstring) :=
  match fuel with
  | O => None
  | S f =>
      match parse_value f s with
      | Some (v, r) =>
          match skip_ws r with
          | c :: r' =>
              if (c =? 44)%N then
                match parse_elements f r' with
                | Some (vs, r'') => Some (v :: vs, r'')
                | None => None
                end
              else if (c =? 93)%N then Some ([v], r')
              else None
          | [] => None
          end
      | None => None
      end
  end

with parse_members (fuel : nat) (s : jsstring) {struct fuel}
  : option (list (jsstring * value) * jsstring) :=
  match fuel with
  | O => None
  | S f =>
      match skip_ws s with
      | q :: r0 =>
          if (q =? 34)%N then
            match parse_chars r0 with
            | Some (k, r1) =>
                match skip_ws r1 with
                | colon :: r2 =>
                    if (colon =? 58)%N then
                      match parse_value f r2 with
                      | Some (v, r3) =>
                          match skip_ws r3 with
                          | c :: r4 =>
                              if (c =? 44)%N then
                                match parse_members f r4 with
                                | Some (ms, r5) => Some ((k, v) :: ms, r5)
                                | None => None
                                end
                              else if (c =? 125)%N then Some ([(k, v)], r4)
                              else None
                          | [] => None
                          end
                      | None => None
                      end
                    else None
                | [] => None
                end
            | None => None
            end
          else None
      | [] => None
      end
  end.

(** [JSON.parse(text)]: one value, then nothing but white space. *)
Definition parse (text : jsstring) : option value :=
  match parse_value (S (length text)) text with
  | Some (v, r) => match skip_ws r with [] => Some v | _ :: _ => None end
  | None => None
  end.

(** *** Measures and shapes of JSON texts *)

(** Fuel that [parse_value] needs for the text of a value. *)
Definition chain (ns : list nat) : nat :=
  fold_right (fun x n => S (Nat.max x n)) 0 ns.

Fixpoint need (v : value) : nat :=
  match v with
  | Arr l => S (chain (map need l))
  | Obj l => S (chain (map (fun kv : jsstring * value =>
                              let (_, x) := kv in need x) l))
  | _ => 1
  end.

Definition all_ws (s : jsstring) : Prop := Forall (fun c => is_ws c = true) s.

(** What may follow a value in a text: the end, or a character that does
    not extend a number. *)
Definition ends_number (s : jsstring) : Prop :=
  match s with
  | [] => True
  | c :: _ => is_digit c = false /\ continues_number s = false
  end.

(** The first character of a serialized value. *)
Definition opens_value (c : N) : Prop :=
  is_ws c = false /\ c <> 93%N /\ c <> 125%N /\ c <> 44%N.

Definition starts_with (c : N) (s : jsstring) : Prop :=
  exists tl, s = c :: tl.

(** One member of an object, as [serialize] writes it. *)
Definition member_text (gap sp indent : jsstring) (kv : jsstring * value)
  : jsstring :=
  let (k, x) := kv in
  QuoteJSONString k ++ 58%N :: sp ++ serialize gap indent x.

(** A serialized value is read back, whatever follows it. *)
Definition reads_back (gap : jsstring) (v : value) : Prop :=
  forall indent f rest,
    all_ws indent -> need v <= f -> ends_number rest ->
    parse_value f (serialize gap indent v ++ rest) = Some (v, rest).

End JSON.

(* ================================================================= *)
(** ** The component *)

(** The object literal passed to [setResult] in the timer callback. *)
Definition mockResult : AnalysisResult :=
  {| talkTimeRatio := 65;
     questionsCount := 12;
     longestMonologue := 42;
     sentiment := positive;
     insights :=
       [ js "Customer showed strong interest in pricing options";
         js "Sales rep effectively addressed objections";
         js "Good use of open-ended questions in the first half";
         js "Consider reducing monologue length to increase engagement" ];
     transcript :=
       js "Sales Rep: Hello, thank you for calling. How can I help you today?"
       ++ [LF]
       ++ js "Customer: Hi, I'm interested in your premium package..."
       ++ [LF]
       ++ js "[Full transcript would be here]" |}.

Definition invalidUrlMessage : jsstring :=
  js "Please enter a valid YouTube URL".

(** The arrow function given to [setTimeout]. *)
Definition run_callback (cb : Callback) : M unit :=
  match cb with
  | mockResponse =>
      setResult (Some mockResult) ;;
      setIsLoading false
  end.

(** [handleSubmit], closed over the render [snap]. *)
Definition handleSubmit (snap : State) : M unit :=
  preventDefault ;;
  setError None ;;
  setResult None ;;
  if negb (validateUrl (url snap)) then
    setError (Some invalidUrlMessage)
  else
    setIsLoading true ;;
    _ <- setTimeout mockResponse 2000 ;;
    ret tt.

Definition sentiment_string (s : Sentiment) : jsstring :=
  match s with
  | positive => js "positive"
  | neutral => js "neutral"
  | negative => js "negative"
  end.

(** An [AnalysisResult] as the object the literal creates: six own
    properties, in the order the literal lists them. *)
Definition toValue (r : AnalysisResult) : JSON.value :=
  JSON.Obj
    [ (js "talkTimeRatio", JSON.Num (talkTimeRatio r));
      (js "questionsCount", JSON.Num (questionsCount r));
      (js "longestMonologue", JSON.Num (longestMonologue r));
      (js "sentiment", JSON.Str (sentiment_string (sentiment r)));
      (js "insights", JSON.Arr (map JSON.Str (insights r)));
      (js "transcript", JSON.Str (transcript r)) ].

(** [handleDownload], closed over the render [snap]. *)
Definition handleDownload (snap : State) (type : DownloadType) : M unit :=
  match result snap with
  | None => ret tt
  | Some r =>
      let data :=
        match type with
        | Tjson => JSON.stringify (toValue r) 2
        | Ttranscript => transcript r
        end in
      let blob :=
        mkBlob [data]
               match type with
               | Tjson => js "application/json"
               | Ttranscript => js "text/plain"
               end in
      downloadUrl <- createObjectURL blob ;;
      a <- createElement_a ;;
      set_href a downloadUrl ;;
      set_download a (js "sales-analysis."
                        ++ match type with
                           | Tjson => js "json"
                           | Ttranscript => js "txt"
                           end) ;;
      appendChild a ;;
      click a ;;
      removeChild a ;;
      revokeObjectURL downloadUrl
  end.

(* ================================================================= *)
(** ** Events of the page *)

Inductive Event :=
| InputChange (v : jsstring)          (* [onChange] of the input *)
| FormSubmit                          (* [onSubmit] of the form *)
| TimerFires                          (* the oldest pending timer expires *)
| DownloadClick (type : DownloadType). (* [onClick] of an export button *)

(** [disabled={isLoading || !url}] on the submit button: a disabled default
    button blocks the submission of its form. *)
Definition submitDisabled (s : State) : bool :=
  isLoading s || match url s with [] => true | _ :: _ => false end.

(** The oldest timer expires and its callback runs.  All timers carry the
    same delay, so they expire in the order they were set. *)
Definition fire (w : World) : World :=
  match timers w with
  | [] => w
  | t :: ts => exec (run_callback (callback t)) (with_timers ts (nextTimer w) w)
  end.

(** One event, when the page can deliver it.  The export buttons are
    rendered only under [result &&]. *)
Definition step (e : Event) (w : World) : option World :=
  match e with
  | InputChange v => Some (exec (setUrl v) w)
  | FormSubmit =>
      if submitDisabled (ui w) then None
      else Some (exec (handleSubmit (ui w)) w)
  | TimerFires =>
      match timers w with
      | [] => None
      | _ :: _ => Some (fire w)
      end
  | DownloadClick type =>
      match result (ui w) with
      | None => None
      | Some _ => Some (exec (handleDownload (ui w) type) w)
      end
  end.

Fixpoint run (es : list Event) (w : World) : option World :=
  match es with
  | [] => Some w
  | e :: es' =>
      match step e w with
      | Some w' => run es' w'
      | None => None
      end
  end.

Definition reachable (w : World) : Prop :=
  exists es, run es initialWorld = Some w.

(** [submit(url)] of the specification, with no regard for the state of
    the button: the input takes the value, then [handleSubmit] runs. *)
Definition submit (u : jsstring) (w : World) : World :=
  let w1 := exec (setUrl u) w in
  exec (handleSubmit (ui w1)) w1.

(** What the page shows of the controller. *)
Definition visible (w : World) : bool * option AnalysisResult * option jsstring :=
  (isLoading (ui w), result (ui w), error (ui w)).

(** The files an export produces from [w]. *)
Definition exported (type : DownloadType) (w : World) : list Download :=
  skipn (length (downloads w))
        (downloads (exec (handleDownload (ui w) type) w)).

(** The effects a handler adds to the trace of [w]. *)
Definition performed {A} (m : M A) (w : World) : list Effect :=
  skipn (length (trace w)) (trace (exec m w)).

(** The text an export of [r] puts into its blob. *)
Definition text_of (r : AnalysisResult) (type : DownloadType) : jsstring :=
  match type with
  | Tjson => JSON.stringify (toValue r) 2
  | Ttranscript => transcript r
  end.

(** The file an export of [r] saves. *)
Definition file_of (r : AnalysisResult) (type : DownloadType) : Download :=
  match type with
  | Tjson => mkDownload (js "sales-analysis.json") (js "application/json")
                        (utf8_encode (JSON.stringify (toValue r) 2))
  | Ttranscript => mkDownload (js "sales-analysis.txt") (js "text/plain")
                              (utf8_encode (transcript r))
  end.

(** Exports in a row. *)
Definition export_all (types : list DownloadType) (w : World) : World :=
  fold_left (fun w' type => exec (handleDownload (ui w') type) w') types w.

(** What the page's own events maintain: a timer is pending exactly while
    loading, it is the only one and the last one set, and while loading
    neither a result nor an error is held. *)
Definition page_invariant (w : World) : Prop :=
  if isLoading (ui w)
  then result (ui w) = None /\ error (ui w) = None
       /\ exists t, timers w = [t] /\ S (timerId t) = nextTimer w
  else timers w = [].

(** *** Sample worlds *)

Definition valid_a : jsstring := js "youtu.be/a".
Definition valid_b : jsstring := js "youtu.be/b".

(** Two submissions in a row, the first one still pending. *)
Definition overlap_world : World := submit valid_b (submit valid_a initialWorld).

(** Loading, with an input that is no longer a valid URL. *)
Definition loading_world : World :=
  exec (setUrl (js "not a url")) (submit valid_a initialWorld).

(* ================================================================= *)
(** ** The specification's notions *)

Module Spec.

(** "The string matches the regular expression", read declaratively:
    [Spans r i w post] says that [r] matches the substring [w] that starts
    at index [i] of the input and is followed by [post]. *)
Inductive Spans : regex -> nat -> jsstring -> jsstring -> Prop :=
| SpEmpty i post : Spans Empty i [] post
| SpChr c i post : Spans (Chr c) i [c] post
| SpDot c i post : isLineTerminator c = false -> Spans Dot i [c] post
| SpBol post : Spans Bol 0 [] post
| SpEol i : Spans Eol i [] []
| SpSeq r1 r2 i w1 w2 post :
    Spans r1 i w1 (w2 ++ post) ->
    Spans r2 (i + length w1) w2 post ->
    Spans (Seq r1 r2) i (w1 ++ w2) post
| SpAltL r1 r2 i w post : Spans r1 i w post -> Spans (Alt r1 r2) i w post
| SpAltR r1 r2 i w post : Spans r2 i w post -> Spans (Alt r1 r2) i w post
| SpOptNone r i post : Spans (Opt r) i [] post
| SpOptSome r i w post : Spans r i w post -> Spans (Opt r) i w post
| SpPlusOne r i w post : Spans r i w post -> Spans (Plus r) i w post
| SpPlusMore r i w1 w2 post :
    Spans r i w1 (w2 ++ post) ->
    Spans (Plus r) (i + length w1) w2 post ->
    Spans (Plus r) i (w1 ++ w2) post.

(** The input contains a match of [r]. *)
Definition Matches (r : regex) (s : jsstring) : Prop :=
  exists pre w post, s = pre ++ w ++ post /\ Spans r (length pre) w post.

(** The shape of an accepted URL in words: an optional scheme, an optional
    [www.], a host out of [hosts], a slash, one or more characters. *)
Definition schemes : list jsstring := [ []; js "http://"; js "https://" ].

Definition www_prefixes : list jsstring := [ []; js "www." ].

Definition url_shape (hosts : list jsstring) (s : jsstring) : Prop :=
  exists scheme www host tail,
    s = scheme ++ www ++ host ++ [47%N] ++ tail
    /\ In scheme schemes /\ In www www_prefixes /\ In host hosts
    /\ tail <> [].

(** Every way of putting one more [c] into [l]. *)
Fixpoint insertions (c : N) (l : jsstring) : list jsstring :=
  match l with
  | [] => [[c]]
  | x :: l' => (c :: l) :: map (cons x) (insertions c l')
  end.

(** The hosts as the specification lists them: [youtube.com], [youtu.be],
    and [youtu.be] with a stray period. *)
Definition listed_hosts : list jsstring :=
  js "youtube.com" :: js "youtu.be" :: insertions 46 (js "youtu.be").

(** The hosts the pattern takes: the period of [youtu.be] may be absent. *)
Definition pattern_hosts : list jsstring :=
  [ js "youtube.com"; js "youtu.be"; js "youtube" ].

(** The controller's invariant on what is shown while loading. *)
Definition loading_shows_nothing (s : State) : Prop :=
  isLoading s = true -> result s = None /\ error s = None.

(** The Failed state: not loading, no result, a non-empty message. *)
Definition failed_state (w : World) : Prop :=
  exists m, m <> [] /\ visible w = (false, None, Some m).

(** A resolution is discarded when it leaves what the page shows as it
    was. *)
Definition discarded (w : World) : Prop := visible (fire w) = visible w.

(** Number.isSafeInteger. *)
Definition safe_integer (z : Z) : Prop :=
  (- 9007199254740991 <= z <= 9007199254740991)%Z.

(** The numbers of a result are JavaScript numbers holding integers. *)
Definition representable (r : AnalysisResult) : Prop :=
  safe_integer (talkTimeRatio r) /\ safe_integer (questionsCount r)
  /\ safe_integer (longestMonologue r).

(** The constraints of the data model on a result. *)
Definition well_formed (r : AnalysisResult) : Prop :=
  (0 <= talkTimeRatio r <= 100)%Z
  /\ (0 <= questionsCount r)%Z
  /\ (0 <= longestMonologue r)%Z
  /\ In (sentiment r) [positive; neutral; negative].

End Spec.

Import Spec.

(* ================================================================= *)
(** ** Sentiment styling *)

(** [===] on two strings. *)
Fixpoint string_eqb (a b : jsstring) : bool :=
  match a, b with
  | [], [] => true
  | x :: a', y :: b' => (x =? y)%N && string_eqb a' b'
  | _, _ => false
  end.

(** [getSentimentColor]: a [switch] on the value, [neutral] sharing the
    [default] branch.  The argument is the run-time string. *)
Definition getSentimentColor (value : jsstring) : jsstring :=
  if string_eqb value (js "positive") then js "text-green-600"
  else if string_eqb value (js "negative") then js "text-red-600"
  else js "text-yellow-600".

(** The two icon components the page uses for a sentiment. *)
Inductive IconKind := CheckCircle | AlertCircle.

Record Icon := mkIcon { iconKind : IconKind; iconClass : jsstring }.

(** [getSentimentIcon]. *)
Definition getSentimentIcon (value : jsstring) : Icon :=
  if string_eqb value (js "positive")
  then mkIcon CheckCircle (js "h-5 w-5 text-green-600")
  else if string_eqb value (js "negative")
  then mkIcon AlertCircle (js "h-5 w-5 text-red-600")
  else mkIcon AlertCircle (js "h-5 w-5 text-yellow-600").

(* ================================================================= *)
(** ** The rendered page *)

(** [Array.prototype.map] with the index its callback receives. *)
Fixpoint indexed {A} (i : nat) (l : list A) : list (nat * A) :=
  match l with
  | [] => []
  | x :: l' => (i, x) :: indexed (S i) l'
  end.

(** [s.charAt(0)] and [s.slice(1)]. *)
Definition charAt0 (s : jsstring) : jsstring :=
  match s with [] => [] | c :: _ => [c] end.

Definition slice1 (s : jsstring) : jsstring :=
  match s with [] => [] | _ :: s' => s' end.

(** The two faces of the submit button. *)
Inductive SubmitLabel := Analyzing | AnalyzeSalesCall.

(** The parts of the results card that depend on the result. *)
Record ResultsView := mkResultsView {
  exportButtons : list DownloadType;     (* the two [onClick] handlers *)
  talkTimeText : jsstring;               (* [{result.talkTimeRatio}%] *)
  questionsText : jsstring;              (* [{result.questionsCount}] *)
  monologueText : jsstring;              (* [{result.longestMonologue}s] *)
  sentimentIcon : Icon;
  sentimentClass : jsstring;
  sentimentLabel : jsstring;
  insightItems : list (nat * jsstring)   (* [key] and text of each [<li>] *)
}.

(** The parts of the page that depend on the state. *)
Record View := mkView {
  inputValue : jsstring;                 (* [value={url}] *)
  errorText : option jsstring;           (* [{error && <p>...}] *)
  submitIsDisabled : bool;               (* [disabled={isLoading || !url}] *)
  submitLabel : SubmitLabel;             (* [isLoading ? ... : ...] *)
  resultsCard : option ResultsView       (* [{result && ...}] *)
}.

Section Render.

(** [String.prototype.toUpperCase], the platform's case mapping. *)
Variable toUpperCase : jsstring -> jsstring.

Definition renderResults (r : AnalysisResult) : ResultsView :=
  let name := sentiment_string (sentiment r) in
  {| exportButtons := [Tjson; Ttranscript];
     talkTimeText := JSON.number_to_string (talkTimeRatio r) ++ js "%";
     questionsText := JSON.number_to_string (questionsCount r);
     monologueText := JSON.number_to_string (longestMonologue r) ++ js "s";
     sentimentIcon := getSentimentIcon name;
     sentimentClass := js "ml-2 font-semibold " ++ getSentimentColor name;
     sentimentLabel := toUpperCase (charAt0 name) ++ slice1 name;
     insightItems := indexed 0 (insights r) |}.

(** The component's return value.  An empty string is falsy, so an empty
    error shows no paragraph. *)
Definition render (s : State) : View :=
  {| inputValue := url s;
     errorText := match error s with
                  | Some (c :: m) => Some (c :: m)
                  | _ => None
                  end;
     submitIsDisabled := submitDisabled s;
     submitLabel := if isLoading s then Analyzing else AnalyzeSalesCall;
     resultsCard := match result s with
                    | Some r => Some (renderResults r)
                    | None => None
                    end |}.

End Render.

(** Case mapping on the Basic Latin letters, other code units left alone:
    a sample of [toUpperCase]. *)
Definition basic_latin_upper (s : jsstring) : jsstring :=
  map (fun c => if (97 <=? c)%N && (c <=? 122)%N then (c - 32)%N else c) s.

(* ================================================================= *)
(** ** Bookkeeping on worlds *)

Definition is_setTimeout (e : Effect) : bool :=
  match e with EsetTimeout _ _ => true | _ => false end.

Definition is_resolution (e : Effect) : bool :=
  match e with EsetResult (Some _) => true | _ => false end.

(** Backend calls issued and resolved so far, read off the trace. *)
Definition calls_issued (w : World) : nat :=
  length (filter is_setTimeout (trace w)).

Definition calls_resolved (w : World) : nat :=
  length (filter is_resolution (trace w)).

(** The four faces of the controller. *)
Definition page_faces : list (bool * option AnalysisResult * option jsstring) :=
  [ (false, None, None);
    (true, None, None);
    (false, Some mockResult, None);
    (false, None, Some invalidUrlMessage) ].

(** Everything the page's events maintain. *)
Definition page_invariant_full (w : World) : Prop :=
  page_invariant w
  /\ In (visible w) page_faces
  /\ body w = [] /\ objectURLs w = []
  /\ Forall (fun t => callback t = mockResponse /\ delay t = 2000%Z) (timers w)
  /\ calls_issued w = calls_resolved w + length (timers w)
  /\ nextTimer w = calls_issued w.

(** The blob and the file name [handleDownload] uses. *)
Definition blob_of (r : AnalysisResult) (type : DownloadType) : Blob :=
  mkBlob [text_of r type] (mimeType (file_of r type)).

(* ================================================================= *)
(** * Properties *)

(** ** Examples of the specification *)

Example validate_ex1 : validateUrl (js "https://www.youtube.com/watch?v=abc123") = true.
Proof. reflexivity. Qed.
Example validate_ex2 : validateUrl (js "youtu.be/abc123") = true.
Proof. reflexivity. Qed.
Example validate_ex3 : validateUrl (js "http://youtube.com/x") = true.
Proof. reflexivity. Qed.
Example validate_ex4 : validateUrl [] = false.
Proof. reflexivity. Qed.
Example validate_ex5 : validateUrl (js "not a url") = false.
Proof. reflexivity. Qed.
Example validate_ex6 : validateUrl (js "https://vimeo.com/123") = false.
Proof. reflexivity. Qed.
Example validate_ex7 : validateUrl (js "youtube/x") = true.
Proof. reflexivity. Qed.
Example validate_ex8 : validateUrl (js "youtube.com/a" ++ [LF] ++ js "b") = false.
Proof. reflexivity. Qed.

(* ================================================================= *)
(** ** The matcher against the declarative reading *)

Lemma state_eta (x : MatchState) : mkState (endIndex x) (rest x) = x.
Proof. destruct x; reflexivity. Qed.

Lemma repeat0_done (m : Continuation -> MatchState -> bool) n k x :
  k x = true -> repeat0 m n k x = true.
Proof.
  destruct n; simpl; intros H; [exact H|].
  rewrite H. apply orb_true_r.
Qed.

Section Iteration.

Variables (fuel : nat) (r : regex).

Hypothesis body_sound :
  forall k x, matcher fuel r k x = true ->
    exists w post, rest x = w ++ post
      /\ Spans r (endIndex x) w post
      /\ k (mkState (endIndex x + length w) post) = true.

Hypothesis body_complete :
  forall k i w post, length (w ++ post) < fuel ->
    Spans r i w post ->
    k (mkState (i + length w) post) = true ->
    matcher fuel r k (mkState i (w ++ post)) = true.

Lemma repeat0_sound n : forall k x,
  repeat0 (matcher fuel r) n k x = true ->
  exists w post, rest x = w ++ post
    /\ (w = [] \/ Spans (Plus r) (endIndex x) w post)
    /\ k (mkState (endIndex x + length w) post) = true.
Proof.
  induction n as [|n IH]; intros k x H; simpl in H.
  - exists [], (rest x). simpl. rewrite Nat.add_0_r, state_eta. auto.
  - apply orb_true_iff in H. destruct H as [H|H].
    + apply body_sound in H. destruct H as (w1 & post1 & E1 & S1 & K1).
      simpl in K1.
      destruct (Nat.eqb (endIndex x + length w1) (endIndex x)); [discriminate|].
      apply IH in K1. simpl in K1.
      destruct K1 as (w2 & post & E2 & S2 & K2).
      exists (w1 ++ w2), post. subst post1.
      rewrite <- app_assoc. split; [exact E1|]. split.
      * right. destruct S2 as [->|S2].
        -- rewrite app_nil_r. apply SpPlusOne. exact S1.
        -- apply SpPlusMore; assumption.
      * rewrite length_app, Nat.add_assoc. exact K2.
    + exists [], (rest x). simpl. rewrite Nat.add_0_r, state_eta. auto.
Qed.

Lemma repeat0_complete i w post :
  Spans (Plus r) i w post ->
  forall n k, length (w ++ post) < n -> length (w ++ post) < fuel ->
    k (mkState (i + length w) post) = true ->
    repeat0 (matcher fuel r) n k (mkState i (w ++ post)) = true.
Proof.
  intros HS. remember (Plus r) as p eqn:Ep.
  induction HS as [ | | | | | | | | | | r0 i w post H1
                    | r0 i w1 w2 post H1 _ H2 IH2 ];
    try discriminate; injection Ep as ->; intros n k Hn Hf K.
  - (* one iteration *)
    destruct n as [|n]; [lia|]. simpl.
    destruct w as [|c w].
    + simpl in K. rewrite Nat.add_0_r in K. simpl. rewrite K.
      apply orb_true_r.
    + apply orb_true_iff. left. apply body_complete; auto.
      simpl. replace (Nat.eqb (i + S (length w)) i) with false
        by (symmetry; apply Nat.eqb_neq; lia).
      apply repeat0_done. exact K.
  - (* one iteration, then more *)
    specialize (IH2 eq_refl).
    destruct w1 as [|c w1].
    + simpl in *. rewrite Nat.add_0_r in IH2. apply IH2; auto.
    + destruct n as [|n]; [simpl in Hn; lia|].
      cbn [repeat0]. apply orb_true_iff. left.
      rewrite <- app_assoc. apply body_complete.
      * rewrite !length_app in *. lia.
      * exact H1.
      * cbn [endIndex].
        replace (Nat.eqb (i + length (c :: w1)) i) with false
          by (symmetry; apply Nat.eqb_neq; simpl; lia).
        apply IH2.
        -- rewrite !length_app in *. simpl in Hn. lia.
        -- rewrite !length_app in *. simpl in Hf. lia.
        -- rewrite length_app, Nat.add_assoc in K. exact K.
Qed.

End Iteration.

Lemma matcher_sound fuel r : forall k x,
  matcher fuel r k x = true ->
  exists w post, rest x = w ++ post
    /\ Spans r (endIndex x) w post
    /\ k (mkState (endIndex x + length w) post) = true.
Proof.
  induction r as [ | c | | | | r1 IH1 r2 IH2 | r1 IH1 r2 IH2 | r IH | r IH ];
    intros k [i s] H; simpl in H; cbn [rest endIndex].
  - exists [], s. simpl. rewrite Nat.add_0_r.
    repeat split; [constructor | exact H].
  - destruct s as [|ch tl]; [discriminate|].
    destruct (N.eqb_spec ch c) as [->|]; [|discriminate].
    exists [c], tl. simpl. rewrite Nat.add_1_r.
    repeat split; [constructor | exact H].
  - destruct s as [|ch tl]; [discriminate|].
    destruct (isLineTerminator ch) eqn:L; [discriminate|].
    exists [ch], tl. simpl. rewrite Nat.add_1_r.
    repeat split; [constructor; exact L | exact H].
  - destruct (Nat.eqb_spec i 0) as [->|]; [|discriminate].
    exists [], s. simpl.
    repeat split; [constructor | exact H].
  - destruct s as [|ch tl]; [|discriminate].
    exists [], []. simpl. rewrite Nat.add_0_r.
    repeat split; [constructor | exact H].
  - apply IH1 in H. destruct H as (w1 & post1 & E1 & S1 & H).
    apply IH2 in H. cbn [rest endIndex] in *.
    destruct H as (w2 & post & E2 & S2 & H).
    subst post1. exists (w1 ++ w2), post.
    rewrite <- app_assoc, length_app, Nat.add_assoc.
    repeat split; [exact E1 | constructor; assumption | exact H].
  - apply orb_true_iff in H. destruct H as [H|H].
    + apply IH1 in H. destruct H as (w & post & E & S1 & H).
      exists w, post. repeat split; [exact E | apply SpAltL; exact S1 | exact H].
    + apply IH2 in H. destruct H as (w & post & E & S1 & H).
      exists w, post. repeat split; [exact E | apply SpAltR; exact S1 | exact H].
  - apply orb_true_iff in H. destruct H as [H|H].
    + apply IH in H. destruct H as (w & post & E & S1 & H).
      cbn [rest endIndex] in *.
      destruct (Nat.eqb (i + length w) i); [discriminate|].
      exists w, post. repeat split; [exact E | apply SpOptSome; exact S1 | exact H].
    + exists [], s. simpl. rewrite Nat.add_0_r.
      repeat split; [constructor | exact H].
  - apply IH in H. destruct H as (w1 & post1 & E1 & S1 & H).
    apply (@repeat0_sound fuel r IH) in H. cbn [rest endIndex] in *.
    destruct H as (w2 & post & E2 & S2 & H).
    subst post1. exists (w1 ++ w2), post.
    rewrite <- app_assoc, length_app, Nat.add_assoc.
    repeat split; [exact E1 | | exact H].
    destruct S2 as [->|S2].
    + rewrite app_nil_r. apply SpPlusOne. exact S1.
    + apply SpPlusMore; assumption.
Qed.

Lemma matcher_complete fuel r : forall k i w post,
  length (w ++ post) < fuel ->
  Spans r i w post ->
  k (mkState (i + length w) post) = true ->
  matcher fuel r k (mkState i (w ++ post)) = true.
Proof.
  induction r as [ | c | | | | r1 IH1 r2 IH2 | r1 IH1 r2 IH2 | r IH | r IH ];
    intros k i w post Hf HS K; inversion HS; subst; simpl in *.
  - rewrite Nat.add_0_r in K. exact K.
  - rewrite N.eqb_refl. rewrite Nat.add_1_r in K. exact K.
  - match goal with H : isLineTerminator _ = false |- _ => rewrite H end.
    rewrite Nat.add_1_r in K. exact K.
  - exact K.
  - rewrite Nat.add_0_r in K. exact K.
  - rewrite <- app_assoc. apply IH1.
    + rewrite !length_app in *. lia.
    + assumption.
    + apply IH2.
      * rewrite !length_app in *. lia.
      * assumption.
      * rewrite length_app, Nat.add_assoc in K. exact K.
  - apply orb_true_iff. left. apply IH1; assumption.
  - apply orb_true_iff. right. apply IH2; assumption.
  - rewrite Nat.add_0_r in K. rewrite K. apply orb_true_r.
  - destruct w as [|c w].
    + simpl in *. rewrite Nat.add_0_r in K. rewrite K. apply orb_true_r.
    + apply orb_true_iff. left. apply IH; [exact Hf | assumption |].
      simpl. replace (Nat.eqb (i + S (length w)) i) with false
        by (symmetry; apply Nat.eqb_neq; lia).
      exact K.
  - apply IH; [exact Hf | assumption |].
    apply repeat0_done. exact K.
  - rewrite <- app_assoc. apply IH.
    + rewrite !length_app in *. lia.
    + assumption.
    + apply (@repeat0_complete fuel r IH).
      * assumption.
      * rewrite !length_app in *. lia.
      * rewrite !length_app in *. lia.
      * rewrite length_app, Nat.add_assoc in K. exact K.
Qed.

Lemma exec_from_sound fuel r : forall s i,
  exec_from fuel r i s = true ->
  exists pre w post, s = pre ++ w ++ post /\ Spans r (i + length pre) w post.
Proof.
  induction s as [|c s IH]; intros i H; simpl in H.
  - rewrite orb_false_r in H. apply matcher_sound in H.
    destruct H as (w & post & E & HS & _). simpl in *.
    exists [], w, post. simpl. rewrite Nat.add_0_r. auto.
  - apply orb_true_iff in H. destruct H as [H|H].
    + apply matcher_sound in H.
      destruct H as (w & post & E & HS & _). simpl in *.
      exists [], w, post. simpl. rewrite Nat.add_0_r. auto.
    + apply IH in H. destruct H as (pre & w & post & E & HS).
      exists (c :: pre), w, post. simpl. rewrite E.
      rewrite Nat.add_succ_r. auto.
Qed.

Lemma exec_from_complete fuel r : forall pre i w post,
  length (pre ++ w ++ post) < fuel ->
  Spans r (i + length pre) w post ->
  exec_from fuel r i (pre ++ w ++ post) = true.
Proof.
  induction pre as [|c pre IH]; intros i w post Hf HS; simpl in *.
  - rewrite Nat.add_0_r in HS.
    assert (M : matcher fuel r (fun _ => true) (mkState i (w ++ post)) = true)
      by (apply matcher_complete; auto).
    destruct (w ++ post); simpl; rewrite M; reflexivity.
  - apply orb_true_iff. right. apply IH; [lia|].
    rewrite Nat.add_succ_r in HS. exact HS.
Qed.

(** [test] decides [Matches], for every pattern. *)
Lemma test_Matches r s : test r s = true <-> Matches r s.
Proof.
  unfold test, Matches. split.
  - intros H. apply exec_from_sound in H. exact H.
  - intros (pre & w & post & -> & HS). apply exec_from_complete; [lia|].
    exact HS.
Qed.

Ltac inv H := inversion H; subst; clear H.

Lemma Spans_lit l : forall i w post, Spans (lit l) i w post -> w = l.
Proof.
  induction l as [|c l IH]; intros i w post H; simpl in H.
  - inv H. reflexivity.
  - inv H. match goal with H : Spans (Chr _) _ _ _ |- _ => inv H end.
    simpl. f_equal. eapply IH. eassumption.
Qed.

Ltac use_lit l :=
  match goal with
  | H : Spans _ _ _ _ |- _ => apply (@Spans_lit l) in H; subst
  end.

Lemma lit_Spans l : forall i post, Spans (lit l) i l post.
Proof.
  induction l as [|c l IH]; intros i post; simpl.
  - constructor.
  - change (c :: l) with ([c] ++ l). constructor; [constructor | apply IH].
Qed.

Lemma Spans_Opt_inv r i w post :
  Spans (Opt r) i w post -> w = [] \/ Spans r i w post.
Proof. intros H. inv H; auto. Qed.

Lemma Spans_plus_dot i w post :
  Spans (Plus Dot) i w post ->
  w <> [] /\ Forall (fun c => isLineTerminator c = false) w.
Proof.
  intros H. remember (Plus Dot) as p eqn:E.
  induction H as [ | | | | | | | | | | r0 i w post H1
                   | r0 i w1 w2 post H1 _ H2 IH2 ];
    try discriminate; injection E as ->.
  - inv H1. split; [discriminate | repeat constructor; assumption].
  - inv H1. destruct (IH2 eq_refl) as [_ F].
    split; [discriminate | constructor; assumption].
Qed.

Lemma plus_dot_Spans w : forall i post,
  w <> [] -> Forall (fun c => isLineTerminator c = false) w ->
  Spans (Plus Dot) i w post.
Proof.
  induction w as [|c w IH]; intros i post Hne F; [congruence|].
  inv F. destruct w as [|c' w].
  - apply SpPlusOne. constructor. assumption.
  - change (c :: c' :: w) with ([c] ++ c' :: w). apply SpPlusMore.
    + constructor. assumption.
    + apply IH; [discriminate | assumption].
Qed.

(** What the pattern accepts, spelled out. *)
Lemma Matches_youtubeRegex s :
  Matches youtubeRegex s <->
  exists scheme www host tail,
    s = scheme ++ www ++ host ++ [47%N] ++ tail
    /\ In scheme schemes /\ In www www_prefixes /\ In host pattern_hosts
    /\ tail <> [] /\ Forall (fun c => isLineTerminator c = false) tail.
Proof.
  split.
  - intros (pre & w & post & -> & H). unfold youtubeRegex in H.
    inv H. match goal with H : Spans Bol _ _ _ |- _ => inv H end.
    destruct pre; [|discriminate]. cbn [length app] in *.
    match goal with H : Spans (Seq _ _) _ _ _ |- _ => inv H end.
    rename w1 into scheme.
    match goal with H : Spans (Seq _ _) _ _ _ |- _ => inv H end.
    rename w1 into www.
    match goal with H : Spans (Seq _ _) _ _ _ |- _ => inv H end.
    rename w1 into host.
    match goal with H : Spans (Seq (Chr _) _) _ _ _ |- _ => inv H end.
    match goal with H : Spans (Chr _) _ _ _ |- _ => inv H end.
    match goal with H : Spans (Seq (Plus _) _) _ _ _ |- _ => inv H end.
    rename w1 into tail.
    match goal with H : Spans Eol _ _ _ |- _ => inv H end.
    match goal with H : Spans (Plus Dot) _ _ _ |- _ =>
      apply Spans_plus_dot in H; destruct H as [Hne HF] end.
    exists scheme, www, host, tail. rewrite !app_nil_r.
    split; [reflexivity|].
    repeat split; try assumption.
    + match goal with H : Spans _ _ scheme _ |- _ =>
        apply Spans_Opt_inv in H; destruct H as [->|H]; [left; reflexivity|];
        inv H end.
      use_lit (js "http").
      match goal with H : Spans (Seq (Opt _) _) _ _ _ |- _ => inv H end.
      use_lit (js "://").
      match goal with H : Spans (Opt (Chr _)) _ _ _ |- _ =>
        apply Spans_Opt_inv in H; destruct H as [->|H] end.
      * right; left; reflexivity.
      * match goal with H : Spans (Chr _) _ _ _ |- _ => inv H end.
        right; right; left; reflexivity.
    + match goal with H : Spans _ _ www _ |- _ =>
        apply Spans_Opt_inv in H; destruct H as [->|H] end; [left; reflexivity|].
      use_lit (js "www."). right; left; reflexivity.
    + match goal with H : Spans _ _ host _ |- _ => inv H end.
      * use_lit (js "youtube.com"). left; reflexivity.
      * match goal with H : Spans (Seq _ _) _ _ _ |- _ => inv H end.
        use_lit (js "youtu").
        match goal with H : Spans (Seq (Opt _) _) _ _ _ |- _ => inv H end.
        use_lit (js "be").
        match goal with H : Spans (Opt (Chr _)) _ _ _ |- _ =>
          apply Spans_Opt_inv in H; destruct H as [->|H] end.
        -- right; right; left; reflexivity.
        -- match goal with H : Spans (Chr _) _ _ _ |- _ => inv H end.
           right; left; reflexivity.
  - intros (scheme & www & host & tail & -> & Hs & Hw & Hh & Hne & HF).
    exists [], (scheme ++ www ++ host ++ [47%N] ++ tail), [].
    split; [simpl; rewrite app_nil_r; reflexivity|].
    unfold youtubeRegex.
    change (scheme ++ www ++ host ++ [47%N] ++ tail)
      with ([] ++ scheme ++ www ++ host ++ [47%N] ++ tail).
    constructor; [constructor|].
    constructor.
    { simpl in Hs. destruct Hs as [<-|[<-|[<-|[]]]].
      - apply SpOptNone.
      - apply SpOptSome.
        change (js "http://") with (js "http" ++ [] ++ js "://").
        constructor; [apply lit_Spans|].
        constructor; [apply SpOptNone | apply lit_Spans].
      - apply SpOptSome.
        change (js "https://") with (js "http" ++ [115%N] ++ js "://").
        constructor; [apply lit_Spans|].
        constructor; [apply SpOptSome; constructor | apply lit_Spans]. }
    constructor.
    { simpl in Hw. destruct Hw as [<-|[<-|[]]].
      - apply SpOptNone.
      - apply SpOptSome. apply lit_Spans. }
    constructor.
    { simpl in Hh. destruct Hh as [<-|[<-|[<-|[]]]].
      - apply SpAltL. apply lit_Spans.
      - apply SpAltR.
        change (js "youtu.be") with (js "youtu" ++ [46%N] ++ js "be").
        constructor; [apply lit_Spans|].
        constructor; [apply SpOptSome; constructor | apply lit_Spans].
      - apply SpAltR.
        change (js "youtube") with (js "youtu" ++ [] ++ js "be").
        constructor; [apply lit_Spans|].
        constructor; [apply SpOptNone | apply lit_Spans]. }
    constructor; [constructor|].
    rewrite <- (app_nil_r tail). constructor.
    + apply plus_dot_Spans; assumption.
    + constructor.
Qed.

(* ================================================================= *)
(** ** Handlers and traces *)

Lemma skipn_app_exact {A} (l l' : list A) : skipn (length l) (l ++ l') = l'.
Proof. induction l; simpl; auto. Qed.

Ltac run_handler :=
  cbv beta iota zeta delta
    [performed exported submit exec handleSubmit run_callback bind ret
     preventDefault setUrl setError setResult setIsLoading setTimeout
     createObjectURL revokeObjectURL createElement_a set_href set_download
     appendChild removeChild click act saved_by_click logged with_ui
     with_timers with_objectURLs with_elements with_body with_downloads
     fst snd ui timers nextTimer objectURLs nextURL elements nextElement
     body downloads trace url isLoading result error href download
     negb lookup update] in *.

Ltac open_world w :=
  destruct w as [[? ? ? ?] ? ? ? ? ? ? ? ? ?]; run_handler.

Lemma handleSubmit_invalid w :
  validateUrl (url (ui w)) = false ->
  exec (handleSubmit (ui w)) w =
  mkWorld (mkUi (url (ui w)) (isLoading (ui w)) None (Some invalidUrlMessage))
          (timers w) (nextTimer w) (objectURLs w) (nextURL w)
          (elements w) (nextElement w) (body w) (downloads w)
          (trace w ++ [EpreventDefault; EsetError None; EsetResult None;
                       EsetError (Some invalidUrlMessage)]).
Proof.
  open_world w. intros V. rewrite V.
  rewrite <- !app_assoc. reflexivity.
Qed.

Lemma handleSubmit_valid w :
  validateUrl (url (ui w)) = true ->
  exec (handleSubmit (ui w)) w =
  mkWorld (mkUi (url (ui w)) true None None)
          (timers w ++ [mkTimer (nextTimer w) mockResponse 2000])
          (S (nextTimer w)) (objectURLs w) (nextURL w)
          (elements w) (nextElement w) (body w) (downloads w)
          (trace w ++ [EpreventDefault; EsetError None; EsetResult None;
                       EsetIsLoading true; EsetTimeout mockResponse 2000]).
Proof.
  open_world w. intros V. rewrite V.
  rewrite <- !app_assoc. reflexivity.
Qed.

Lemma callback_runs w :
  exec (run_callback mockResponse) w =
  mkWorld (mkUi (url (ui w)) false (Some mockResult) (error (ui w)))
          (timers w) (nextTimer w) (objectURLs w) (nextURL w)
          (elements w) (nextElement w) (body w) (downloads w)
          (trace w ++ [EsetResult (Some mockResult); EsetIsLoading false]).
Proof. open_world w. rewrite <- !app_assoc. reflexivity. Qed.

(** The anchor dance of [handleDownload], for any blob and file name. *)
Lemma anchor_download blob name w :
  let w' :=
    exec (downloadUrl <- createObjectURL blob ;;
          a <- createElement_a ;;
          set_href a downloadUrl ;;
          set_download a name ;;
          appendChild a ;;
          click a ;;
          removeChild a ;;
          revokeObjectURL downloadUrl) w in
  ui w' = ui w /\ timers w' = timers w /\ nextTimer w' = nextTimer w
  /\ downloads w' =
     downloads w ++ [mkDownload name (blobType blob)
                                (concat (map utf8_encode (blobParts blob)))].
Proof.
  open_world w. rewrite !Nat.eqb_refl. run_handler. rewrite ?Nat.eqb_refl.
  run_handler.
  repeat split.
Qed.

Lemma handleDownload_runs w r type :
  result (ui w) = Some r ->
  let w' := exec (handleDownload (ui w) type) w in
  ui w' = ui w /\ timers w' = timers w /\ nextTimer w' = nextTimer w
  /\ downloads w' = downloads w ++ [file_of r type].
Proof.
  intros R. unfold handleDownload. rewrite R.
  destruct type; cbv zeta;
    match goal with
    | |- context [createObjectURL ?b] =>
        match goal with
        | |- context [set_download _ ?n] =>
            destruct (anchor_download b n w) as (U & T & N & D)
        end
    end; cbv zeta in *; rewrite U, T, N, D;
    cbn [blobType blobParts concat map];
    rewrite app_nil_r; repeat split.
Qed.

Lemma handleDownload_none snap type w :
  result snap = None -> handleDownload snap type w = (tt, w).
Proof. intros R. unfold handleDownload. rewrite R. reflexivity. Qed.

(** ** Reachable worlds *)

Lemma step_invariant e w w' :
  page_invariant w -> step e w = Some w' -> page_invariant w'.
Proof.
  unfold page_invariant. intros I H. destruct e as [v | | | type]; simpl in H.
  - injection H as <-. open_world w. exact I.
  - unfold submitDisabled in H.
    destruct (isLoading (ui w)) eqn:L; simpl in H; [discriminate|].
    destruct (url (ui w)) eqn:U; [discriminate|].
    injection H as <-.
    destruct (validateUrl (url (ui w))) eqn:V.
    + rewrite (handleSubmit_valid _ V). cbn. rewrite I. cbn.
      repeat split. eexists. split; reflexivity.
    + rewrite (handleSubmit_invalid _ V). cbn. rewrite L. exact I.
  - unfold fire in H. destruct (timers w) as [|t ts] eqn:T; [discriminate|].
    injection H as <-. destruct (callback t). rewrite callback_runs. cbn.
    destruct (isLoading (ui w)).
    + destruct I as (_ & _ & t' & E & _). congruence.
    + discriminate.
  - destruct (result (ui w)) as [r|] eqn:R; [|discriminate].
    injection H as <-.
    destruct (handleDownload_runs w type R) as (U & T & N & _).
    rewrite U, T, N, R. exact I.
Qed.

Lemma run_invariant es : forall w w',
  page_invariant w -> run es w = Some w' -> page_invariant w'.
Proof.
  induction es as [|e es IH]; intros w w' I H; simpl in H.
  - injection H as <-. exact I.
  - destruct (step e w) as [w1|] eqn:S1; [|discriminate].
    eapply IH; [|exact H]. eapply step_invariant; eassumption.
Qed.

Lemma reachable_invariant w : reachable w -> page_invariant w.
Proof.
  intros [es H]. eapply run_invariant; [|exact H].
  reflexivity.
Qed.

Lemma setUrl_runs u w :
  exec (setUrl u) w =
  mkWorld (mkUi u (isLoading (ui w)) (result (ui w)) (error (ui w)))
          (timers w) (nextTimer w) (objectURLs w) (nextURL w)
          (elements w) (nextElement w) (body w) (downloads w)
          (trace w ++ [EsetUrl u]).
Proof. open_world w. reflexivity. Qed.

Lemma handleDownload_ui type w : ui (exec (handleDownload (ui w) type) w) = ui w.
Proof.
  destruct (result (ui w)) as [r|] eqn:R.
  - apply (handleDownload_runs w type R).
  - unfold exec. rewrite handleDownload_none by exact R. reflexivity.
Qed.

Lemma export_all_ui types : forall w, ui (export_all types w) = ui w.
Proof.
  induction types as [|type types IH]; intros w; simpl; [reflexivity|].
  unfold export_all in IH. rewrite IH. apply handleDownload_ui.
Qed.

Lemma exported_file w r type :
  result (ui w) = Some r -> exported type w = [file_of r type].
Proof.
  intros R. unfold exported.
  destruct (handleDownload_runs w type R) as (_ & _ & _ & D).
  rewrite D. apply skipn_app_exact.
Qed.

Lemma sentiment_string_inj a b :
  sentiment_string a = sentiment_string b -> a = b.
Proof. destruct a, b; intros H; try reflexivity; discriminate H. Qed.

Lemma map_Str_inj l : forall l', map JSON.Str l = map JSON.Str l' -> l = l'.
Proof.
  induction l as [|x l IH]; intros [|y l'] H; try discriminate H.
  - reflexivity.
  - simpl in H. injection H as -> H. f_equal. apply IH. exact H.
Qed.

Lemma toValue_inj r r' : toValue r = toValue r' -> r = r'.
Proof.
  destruct r as [a1 a2 a3 a4 a5 a6], r' as [b1 b2 b3 b4 b5 b6].
  unfold toValue. cbn [talkTimeRatio questionsCount longestMonologue
                       sentiment insights transcript].
  intros H. injection H as H1 H2 H3 H4 H5 H6.
  apply sentiment_string_inj in H4. apply map_Str_inj in H5.
  subst. reflexivity.
Qed.


(* ================================================================= *)
(** ** [JSON.parse] after [JSON.stringify] *)

Module JSONFacts.
Import JSON.


(** *** Numbers *)

Lemma read_digits_units d : forall rest,
  ends_number rest -> read_digits (uint_units d ++ rest) = (d, rest).
Proof.
  induction d; intros rest E; simpl; try (rewrite IHd by exact E; reflexivity).
  destruct rest as [|c rest]; [reflexivity|]. simpl.
  destruct E as [E _]. unfold is_digit in E.
  destruct (digit_of c); [discriminate | reflexivity].
Qed.

Lemma to_uint_normal n : Decimal.unorm (N.to_uint n) = N.to_uint n.
Proof.
  rewrite <- (DecimalN.Unsigned.of_to n) at 2. symmetry. apply DecimalN.Unsigned.to_of.
Qed.

Lemma continues_number_units d rest :
  d <> Decimal.Nil -> continues_number (uint_units d ++ rest) = false.
Proof. destruct d; simpl; [congruence | reflexivity ..]. Qed.

Lemma parse_nat_units n rest :
  ends_number rest ->
  parse_nat (uint_units (N.to_uint n) ++ rest) = Some (n, rest).
Proof.
  intros E. pose proof (to_uint_normal n) as U.
  pose proof (DecimalN.Unsigned.of_to n) as O.
  destruct (N.to_uint n) as [|d|d|d|d|d|d|d|d|d|d] eqn:D.
  3-11: unfold parse_nat;
    match type of D with
    | _ = ?u => pose proof (@read_digits_units u rest E) as RD
    end;
    cbn [uint_units app N.eqb Pos.eqb is_digit digit_of] in *;
    rewrite RD;
    destruct rest as [|c rest]; [rewrite O; reflexivity|];
    destruct E as [_ E]; rewrite E, O; reflexivity.
  - exfalso. apply (DecimalFacts.unorm_nonnil Decimal.Nil). exact U.
  - assert (d = Decimal.Nil) as ->.
    { unfold Decimal.unorm in U. simpl in U.
      destruct (Decimal.nzhead d) eqn:Z;
        try (exfalso; apply (DecimalFacts.nzhead_nonzero d d); congruence).
      injection U as <-. reflexivity. }
    simpl in O. subst n. simpl.
    destruct rest as [|c rest]; [reflexivity|].
    destruct E as [E1 E2]. rewrite E1, E2. reflexivity.
Qed.

Lemma units_head n :
  exists c tl, uint_units (N.to_uint n) = c :: tl
               /\ is_digit c = true.
Proof.
  pose proof (to_uint_normal n) as U.
  destruct (N.to_uint n) eqn:D; simpl; try (eexists; eexists; split; reflexivity).
  exfalso. apply (DecimalFacts.unorm_nonnil Decimal.Nil). exact U.
Qed.

Lemma parse_number_to_string z rest :
  ends_number rest ->
  parse_number (number_to_string z ++ rest) = Some (z, rest).
Proof.
  intros E. unfold number_to_string, parse_number.
  destruct (Z.ltb_spec z 0) as [L|L].
  - cbn [app N.eqb Pos.eqb]. rewrite parse_nat_units by exact E.
    rewrite Z2N.id by lia. f_equal. f_equal. lia.
  - pose proof (@parse_nat_units (Z.to_N z) rest E) as P.
    destruct (units_head (Z.to_N z)) as (c & tl & H & Dg).
    rewrite H in *. cbn [app] in *.
    replace (c =? 45)%N with false.
    + rewrite P, Z2N.id by lia. reflexivity.
    + symmetry. apply N.eqb_neq. intros ->. discriminate Dg.
Qed.

(** *** Strings *)

Lemma hex_digit_value n :
  (n < 16)%N -> hex_value (hex_digit n) = Some n.
Proof.
  intros H. destruct n as [|p]; [reflexivity|].
  do 5 (try match goal with q : BinNums.positive |- _ => destruct q end);
    try reflexivity; lia.
Qed.

Lemma hex4_unicode_escape c :
  (c < 65536)%N ->
  hex4 (hex_digit ((c / 4096) mod 16)) (hex_digit ((c / 256) mod 16))
       (hex_digit ((c / 16) mod 16)) (hex_digit (c mod 16)) = Some c.
Proof.
  intros H. unfold hex4.
  rewrite !hex_digit_value by (apply N.mod_upper_bound; discriminate).
  f_equal.
  pose proof (N.div_mod c 16 ltac:(discriminate)).
  pose proof (N.div_mod (c / 16) 16 ltac:(discriminate)).
  pose proof (N.div_mod (c / 256) 16 ltac:(discriminate)).
  replace (c / 256)%N with (c / 16 / 16)%N in *
    by (rewrite N.Div0.div_div; reflexivity).
  replace (c / 4096)%N with (c / 16 / 16 / 16)%N
    by (rewrite !N.Div0.div_div; reflexivity).
  assert (c / 16 / 16 / 16 < 16)%N.
  { rewrite !N.Div0.div_div. apply N.Div0.div_lt_upper_bound. simpl. lia. }
  rewrite (N.mod_small (c / 16 / 16 / 16) 16) by assumption.
  lia.
Qed.

Lemma parse_chars_raw c t :
  c <> 34%N -> c <> 92%N -> (32 <= c)%N ->
  parse_chars (c :: t) = consed c (parse_chars t).
Proof.
  intros A B C. cbn [parse_chars].
  destruct (N.eqb_spec c 34); [contradiction|].
  destruct (N.eqb_spec c 92); [contradiction|].
  destruct (N.ltb_spec c 32); [lia | reflexivity].
Qed.

Lemma parse_chars_unicode_escape c t :
  (c < 65536)%N ->
  parse_chars (unicode_escape c ++ t) = consed c (parse_chars t).
Proof.
  intros H. unfold unicode_escape. cbn [app parse_chars N.eqb Pos.eqb].
  rewrite hex4_unicode_escape by exact H. reflexivity.
Qed.

Lemma parse_chars_escape_unit c t :
  is_leading_surrogate c = false ->
  parse_chars (escape_unit c ++ t) = consed c (parse_chars t).
Proof.
  intros L. unfold escape_unit.
  repeat match goal with
         | |- context [(c =? ?k)%N] =>
             destruct (N.eqb_spec c k); [subst c; reflexivity|]
         end.
  destruct ((c <? 32)%N || is_trailing_surrogate c) eqn:E.
  - apply parse_chars_unicode_escape.
    apply orb_true_iff in E. destruct E as [E|E].
    + apply N.ltb_lt in E. lia.
    + unfold is_trailing_surrogate in E. apply andb_true_iff in E.
      destruct E as [_ E]. apply N.leb_le in E. lia.
  - apply orb_false_iff in E. destruct E as [E _]. apply N.ltb_ge in E.
    apply parse_chars_raw; assumption.
Qed.

Lemma surrogate_is_raw c :
  is_leading_surrogate c = true \/ is_trailing_surrogate c = true ->
  c <> 34%N /\ c <> 92%N /\ (32 <= c)%N /\ (c < 65536)%N.
Proof.
  unfold is_leading_surrogate, is_trailing_surrogate.
  intros [H|H]; apply andb_true_iff in H; destruct H as [A B];
    apply N.leb_le in A, B; lia.
Qed.

Lemma parse_chars_quote_units_bounded n : forall s rest,
  length s <= n ->
  parse_chars (quote_units s ++ 34%N :: rest) = Some (s, rest).
Proof.
  induction n as [|n IH]; intros s rest Hn.
  - destruct s; [reflexivity | simpl in Hn; lia].
  - destruct s as [|c s]; [reflexivity|].
    cbn [quote_units]. simpl in Hn.
    destruct (is_leading_surrogate c) eqn:L.
    + destruct (@surrogate_is_raw c (or_introl L)) as (A & B & C & D).
      destruct s as [|c2 s].
      * rewrite parse_chars_unicode_escape by exact D. reflexivity.
      * destruct (is_trailing_surrogate c2) eqn:T.
        -- destruct (@surrogate_is_raw c2 (or_intror T)) as (A2 & B2 & C2 & _).
           cbn [app]. rewrite parse_chars_raw by assumption.
           rewrite parse_chars_raw by assumption.
           rewrite IH by (simpl in Hn; lia). reflexivity.
        -- rewrite <- app_assoc.
           rewrite parse_chars_unicode_escape by exact D.
           rewrite IH by lia. reflexivity.
    + rewrite <- app_assoc. rewrite parse_chars_escape_unit by exact L.
      rewrite IH by lia. reflexivity.
Qed.

Lemma parse_chars_quote_units s rest :
  parse_chars (quote_units s ++ 34%N :: rest) = Some (s, rest).
Proof. apply (@parse_chars_quote_units_bounded (length s)). lia. Qed.



Lemma value_ind (P : value -> Prop) :
  P Null -> (forall b, P (Bool b)) -> (forall z, P (Num z)) ->
  (forall s, P (Str s)) ->
  (forall l, Forall P l -> P (Arr l)) ->
  (forall l, Forall (fun kv => P (snd kv)) l -> P (Obj l)) ->
  forall v, P v.
Proof.
  intros HN HB HZ HS HA HO. fix IH 1. intros [ | b | z | s | l | l ].
  - exact HN.
  - apply HB.
  - apply HZ.
  - apply HS.
  - apply HA. induction l as [|x l IHl]; constructor; [apply IH | exact IHl].
  - apply HO. induction l as [|[k x] l IHl]; constructor;
      [apply IH | exact IHl].
Qed.

Lemma skip_ws_app pre s : all_ws pre -> skip_ws (pre ++ s) = skip_ws s.
Proof.
  induction 1 as [|c pre Hc _ IH]; simpl; [reflexivity|].
  rewrite Hc. exact IH.
Qed.

Lemma skip_ws_stop c s : is_ws c = false -> skip_ws (c :: s) = c :: s.
Proof. intros H. simpl. rewrite H. reflexivity. Qed.

Lemma parse_value_skip f pre s :
  all_ws pre -> parse_value f (pre ++ s) = parse_value f s.
Proof.
  intros W. destruct f; [reflexivity|]. cbn [parse_value].
  rewrite skip_ws_app by exact W. reflexivity.
Qed.

Lemma parse_elements_skip f pre s :
  all_ws pre -> parse_elements f (pre ++ s) = parse_elements f s.
Proof.
  intros W. destruct f; [reflexivity|]. cbn [parse_elements].
  rewrite parse_value_skip by exact W. reflexivity.
Qed.

Lemma parse_members_skip f pre s :
  all_ws pre -> parse_members f (pre ++ s) = parse_members f s.
Proof.
  intros W. destruct f; [reflexivity|]. cbn [parse_members].
  rewrite skip_ws_app by exact W. reflexivity.
Qed.

Lemma is_digit_range c : is_digit c = true -> (48 <= c <= 57)%N.
Proof.
  unfold is_digit, digit_of.
  repeat match goal with
         | |- context [(c =? ?k)%N] => destruct (N.eqb_spec c k); [lia|]
         end.
  discriminate.
Qed.

Lemma number_head z :
  exists c tl, number_to_string z = c :: tl /\ (45 <= c <= 57)%N.
Proof.
  unfold number_to_string. destruct (z <? 0)%Z.
  - eexists. eexists. split; [reflexivity | lia].
  - destruct (units_head (Z.to_N z)) as (c & tl & H & D).
    exists c, tl. split; [exact H|]. apply is_digit_range in D. lia.
Qed.

Lemma wrap_head o c gap stepback parts :
  exists tl, wrap o c gap stepback parts = o :: tl.
Proof.
  unfold wrap. destruct parts; [eexists; reflexivity|].
  destruct gap; eexists; reflexivity.
Qed.

Lemma serialize_head gap indent v :
  exists c tl, serialize gap indent v = c :: tl /\ opens_value c.
Proof.
  unfold opens_value.
  destruct v as [ | [|] | z | s | l | l ]; cbn [serialize].
  - eexists. eexists. split; [reflexivity|]. repeat split; discriminate.
  - eexists. eexists. split; [reflexivity|]. repeat split; discriminate.
  - eexists. eexists. split; [reflexivity|]. repeat split; discriminate.
  - destruct (number_head z) as (c & tl & H & R). exists c, tl.
    split; [exact H|]. unfold is_ws.
    repeat match goal with
           | |- context [(c =? ?k)%N] => destruct (N.eqb_spec c k); [lia|]
           end.
    repeat split; lia.
  - eexists. eexists. split; [reflexivity|]. repeat split; discriminate.
  - destruct (wrap_head 91 93 gap indent
                (map (serialize gap (indent ++ gap)) l)) as [tl ->].
    eexists. eexists. split; [reflexivity|]. repeat split; discriminate.
  - match goal with |- context [wrap 123 125 gap indent ?p] =>
      destruct (wrap_head 123 125 gap indent p) as [tl ->] end.
    eexists. eexists. split; [reflexivity|]. repeat split; discriminate.
Qed.



Lemma parse_value_number f z rest :
  ends_number rest ->
  parse_value (S f) (number_to_string z ++ rest) = Some (Num z, rest).
Proof.
  intros E. pose proof (@parse_number_to_string z rest E) as P.
  destruct (number_head z) as (c & tl & H & R). rewrite H in *.
  cbn [app parse_value] in *.
  assert (W : is_ws c = false).
  { unfold is_ws.
    repeat match goal with
           | |- context [(c =? ?k)%N] => destruct (N.eqb_spec c k); [lia|]
           end. reflexivity. }
  rewrite skip_ws_stop by exact W.
  repeat match goal with
         | |- context [(c =? ?k)%N] => destruct (N.eqb_spec c k); [lia|]
         end.
  rewrite P. reflexivity.
Qed.

Lemma parse_value_string f s rest :
  parse_value (S f) (QuoteJSONString s ++ rest) = Some (Str s, rest).
Proof.
  unfold QuoteJSONString. cbn [app parse_value skip_ws is_ws N.eqb Pos.eqb orb].
  rewrite <- app_assoc. cbn [app].
  rewrite parse_chars_quote_units. reflexivity.
Qed.

Lemma ends_number_comma s : ends_number (44%N :: s).
Proof. split; reflexivity. Qed.

Lemma ends_number_newline s : ends_number (LF :: s).
Proof. split; reflexivity. Qed.

Lemma all_ws_newline indent : all_ws indent -> all_ws (LF :: indent).
Proof. intros W. constructor; [reflexivity | exact W]. Qed.

Lemma join_cons sep x y l :
  join sep (x :: y :: l) = x ++ sep ++ join sep (y :: l).
Proof. reflexivity. Qed.

Lemma chain_cons x ns : chain (x :: ns) = S (Nat.max x (chain ns)).
Proof. reflexivity. Qed.

Lemma ws_ends_number c s : is_ws c = true -> ends_number (c :: s).
Proof.
  unfold is_ws, ends_number, is_digit, digit_of, continues_number.
  intros H.
  repeat match type of H with
         | context [(c =? ?k)%N] =>
             destruct (N.eqb_spec c k); [subst c; split; reflexivity|]
         end.
  discriminate H.
Qed.

Lemma ends_number_closing wb c rest :
  all_ws wb -> c = 93%N \/ c = 125%N -> ends_number (wb ++ c :: rest).
Proof.
  intros W C. destruct W as [|x wb Hx _].
  - destruct C as [-> | ->]; split; reflexivity.
  - apply ws_ends_number. exact Hx.
Qed.

Lemma join_head sep c tl ps :
  exists tl', join sep ((c :: tl) :: ps) = c :: tl'.
Proof. destruct ps; eexists; reflexivity. Qed.

(** The text around the parts of a non-empty array or object. *)
Lemma wrap_parts o c gap stepback p ps :
  all_ws gap -> all_ws stepback ->
  exists wa wb,
    all_ws wa /\ all_ws wb
    /\ wrap o c gap stepback (p :: ps)
       = o :: wa ++ join (44%N :: wa) (p :: ps) ++ wb ++ [c].
Proof.
  intros Wg Ws. unfold wrap. destruct gap as [|g gap].
  - exists [], []. repeat split; constructor.
  - exists (LF :: stepback ++ g :: gap), (LF :: stepback).
    split; [|split].
    + apply all_ws_newline. apply Forall_app. split; assumption.
    + apply all_ws_newline. exact Ws.
    + cbn [app]. rewrite <- !app_assoc. reflexivity.
Qed.

Lemma starts_with_app c s t : starts_with c s -> starts_with c (s ++ t).
Proof. intros [tl ->]. eexists. reflexivity. Qed.

Lemma starts_with_join c sep p ps :
  starts_with c p -> starts_with c (join sep (p :: ps)).
Proof.
  intros H. destruct ps; [exact H|]. rewrite join_cons.
  apply starts_with_app. exact H.
Qed.

Lemma skip_ws_starts c wa s :
  all_ws wa -> is_ws c = false -> starts_with c s ->
  starts_with c (skip_ws (wa ++ s)).
Proof.
  intros W N [tl ->]. rewrite skip_ws_app by exact W.
  rewrite skip_ws_stop by exact N. eexists. reflexivity.
Qed.

Lemma parse_value_array f r c :
  starts_with c (skip_ws r) -> c <> 93%N ->
  parse_value (S f) (91%N :: r)
  = match parse_elements f r with
    | Some (vs, r') => Some (Arr vs, r')
    | None => None
    end.
Proof.
  intros [tl H] N. cbn [parse_value skip_ws is_ws N.eqb Pos.eqb orb].
  rewrite H. destruct (N.eqb_spec c 93); [contradiction | reflexivity].
Qed.

Lemma parse_value_object f r :
  starts_with 34%N (skip_ws r) ->
  parse_value (S f) (123%N :: r)
  = match parse_members f r with
    | Some (ms, r') => Some (Obj ms, r')
    | None => None
    end.
Proof.
  intros [tl H]. cbn [parse_value skip_ws is_ws N.eqb Pos.eqb orb].
  rewrite H. reflexivity.
Qed.

Section Indented.

Variable gap : jsstring.
Hypothesis gap_ws : all_ws gap.

Lemma parse_elements_join l :
  Forall (reads_back gap) l -> l <> [] ->
  forall indent wa wb f rest,
    all_ws indent -> all_ws wa -> all_ws wb -> chain (map need l) <= f ->
    parse_elements f
      (join (44%N :: wa) (map (serialize gap indent) l)
         ++ wb ++ 93%N :: rest)
    = Some (l, rest).
Proof.
  induction 1 as [|v l Hv Hl IH]; [congruence|]. intros _.
  intros indent wa wb f rest Wi Wa Wb Hf.
  cbn [map] in Hf. rewrite chain_cons in Hf.
  destruct f as [|f]; [lia|]. cbn [parse_elements].
  destruct l as [|v2 l].
  - cbn [map join].
    rewrite Hv; [| exact Wi | lia | apply ends_number_closing; auto].
    rewrite skip_ws_app by exact Wb.
    reflexivity.
  - cbn [map] in *. rewrite join_cons. rewrite <- !app_assoc.
    rewrite Hv; [| exact Wi | lia | apply ends_number_comma].
    cbn [app skip_ws is_ws N.eqb Pos.eqb orb].
    rewrite parse_elements_skip by exact Wa.
    rewrite IH; [reflexivity | discriminate | exact Wi | exact Wa
                 | exact Wb | lia].
Qed.

Lemma parse_members_join l :
  Forall (fun kv => reads_back gap (snd kv)) l -> l <> [] ->
  forall indent sp wa wb f rest,
    all_ws indent -> all_ws sp -> all_ws wa -> all_ws wb ->
    chain (map (fun kv : jsstring * value => let (_, x) := kv in need x) l)
      <= f ->
    parse_members f
      (join (44%N :: wa) (map (member_text gap sp indent) l)
         ++ wb ++ 125%N :: rest)
    = Some (l, rest).
Proof.
  induction 1 as [|[k v] l Hv Hl IH]; [congruence|]. intros _.
  intros indent sp wa wb f rest Wi Wp Wa Wb Hf.
  cbn [map snd] in Hf, Hv. rewrite chain_cons in Hf.
  destruct f as [|f]; [lia|].
  assert (K : forall tail,
             ends_number tail ->
             parse_members (S f)
               (member_text gap sp indent (k, v) ++ tail)
             = match skip_ws tail with
               | c :: r4 =>
                   if (c =? 44)%N then
                     match parse_members f r4 with
                     | Some (ms, r5) => Some ((k, v) :: ms, r5)
                     | None => None
                     end
                   else if (c =? 125)%N then Some ([(k, v)], r4)
                   else None
               | [] => None
               end).
  { intros tail E. unfold member_text, QuoteJSONString.
    cbn [parse_members app skip_ws is_ws N.eqb Pos.eqb orb].
    rewrite <- !app_assoc. cbn [app].
    rewrite parse_chars_quote_units.
    cbn [skip_ws is_ws N.eqb Pos.eqb orb].
    rewrite <- !app_assoc.
    rewrite parse_value_skip by exact Wp.
    rewrite Hv; [reflexivity | exact Wi | lia | exact E]. }
  destruct l as [|kv2 l].
  - cbn [map join]. rewrite K by (apply ends_number_closing; auto).
    rewrite skip_ws_app by exact Wb.
    reflexivity.
  - cbn [map] in *. rewrite join_cons. rewrite <- !app_assoc.
    rewrite K by apply ends_number_comma.
    cbn [app skip_ws is_ws N.eqb Pos.eqb orb].
    rewrite parse_members_skip by exact Wa.
    rewrite IH; [reflexivity | discriminate | exact Wi | exact Wp
                 | exact Wa | exact Wb | lia].
Qed.

Lemma serialize_Obj indent l :
  serialize gap indent (Obj l)
  = wrap 123 125 gap indent
      (map (member_text gap match gap with [] => [] | _ :: _ => [32%N] end
                        (indent ++ gap)) l).
Proof. reflexivity. Qed.

Theorem parse_serialize v : reads_back gap v.
Proof.
  induction v as [ | b | z | s | l IH | l IH ] using value_ind;
    intros indent f rest Wi Hf E;
    (destruct f as [|f]; [simpl in Hf; lia|]).
  - reflexivity.
  - destruct b; reflexivity.
  - apply parse_value_number. exact E.
  - apply parse_value_string.
  - cbn [serialize]. destruct l as [|v l]; [reflexivity|].
    cbn [map].
    destruct (@wrap_parts 91 93 gap indent
                (serialize gap (indent ++ gap) v)
                (map (serialize gap (indent ++ gap)) l) gap_ws Wi)
      as (wa & wb & Wa & Wb & ->).
    destruct (serialize_head gap (indent ++ gap) v)
      as (c & tl & H & O1 & O2 & _).
    cbn [app]. rewrite <- !app_assoc.
    rewrite (@parse_value_array f _ c).
    + rewrite parse_elements_skip by exact Wa.
      change (serialize gap (indent ++ gap) v
                :: map (serialize gap (indent ++ gap)) l)
        with (map (serialize gap (indent ++ gap)) (v :: l)).
      cbn [app]. rewrite parse_elements_join; try assumption.
      * reflexivity.
      * discriminate.
      * apply Forall_app. split; assumption.
      * cbn [need] in Hf. lia.
    + apply skip_ws_starts; [exact Wa | exact O1 |].
      apply starts_with_app, starts_with_join. rewrite H.
      eexists. reflexivity.
    + exact O2.
  - rewrite serialize_Obj. destruct l as [|[k v] l]; [reflexivity|].
    cbn [map].
    match goal with
    | |- context [wrap 123 125 gap indent (?p :: ?ps)] =>
        destruct (@wrap_parts 123 125 gap indent p ps gap_ws Wi)
          as (wa & wb & Wa & Wb & ->)
    end.
    cbn [app]. rewrite <- !app_assoc.
    rewrite parse_value_object.
    + rewrite parse_members_skip by exact Wa.
      match goal with
      | |- context [join ?sep (?p :: ?ps)] =>
          change (join sep (p :: ps))
            with (join sep
                    (map (member_text gap
                            match gap with [] => [] | _ :: _ => [32%N] end
                            (indent ++ gap)) ((k, v) :: l)))
      end.
      cbn [app]. rewrite parse_members_join; try assumption.
      * reflexivity.
      * discriminate.
      * apply Forall_app. split; assumption.
      * destruct gap; repeat constructor.
      * cbn [need] in Hf. lia.
    + apply skip_ws_starts; [exact Wa | reflexivity |].
      apply starts_with_app, starts_with_join.
      eexists. reflexivity.
Qed.

End Indented.



Lemma chain_join sep ns : forall parts,
  sep <> [] ->
  Forall2 (fun n p => n <= length p) ns parts ->
  chain ns <= length (join sep parts) + 1.
Proof.
  intros parts Hs F. induction F as [|n p ns parts Hn F IH]; [simpl; lia|].
  rewrite chain_cons. destruct F as [|n2 p2 ns parts Hn2 F].
  - simpl. lia.
  - rewrite join_cons, !length_app.
    destruct sep; [congruence|]. simpl length in *. lia.
Qed.

Section Bound.

Variable gap : jsstring.
Hypothesis gap_ws : all_ws gap.

Lemma wrap_length o c stepback p ps :
  all_ws stepback ->
  exists wa, length (wrap o c gap stepback (p :: ps))
             >= 2 + length (join (44%N :: wa) (p :: ps)).
Proof.
  intros Ws.
  destruct (@wrap_parts o c gap stepback p ps gap_ws Ws)
    as (wa & wb & _ & _ & ->).
  exists wa. cbn [length]. rewrite !length_app. simpl. lia.
Qed.

Lemma need_bound v : forall indent,
  all_ws indent -> need v <= length (serialize gap indent v).
Proof.
  induction v as [ | b | z | s | l IH | l IH ] using value_ind;
    intros indent Wi;
    try (match goal with
         | |- need ?x <= length (serialize _ _ ?x) =>
             destruct (serialize_head gap indent x) as (c & tl & E & _);
             rewrite E; simpl; lia
         end).
  - cbn [need serialize]. destruct l as [|v l]; [simpl; lia|].
    cbn [map].
    match goal with
    | |- context [wrap 91 93 gap indent (?p :: ?ps)] =>
        destruct (@wrap_length 91 93 indent p ps Wi) as [wa L]
    end.
    assert (C : chain (need v :: map need l)
                <= length (join (44%N :: wa)
                             (map (serialize gap (indent ++ gap)) (v :: l)))
                   + 1).
    { apply chain_join; [discriminate|].
      change (need v :: map need l) with (map need (v :: l)).
      clear L. induction IH as [|x xs Hx _ IHxs]; cbn [map]; constructor.
      - apply Hx. apply Forall_app. split; assumption.
      - exact IHxs. }
    cbn [map] in C. lia.
  - rewrite serialize_Obj. cbn [need]. destruct l as [|kv l]; [simpl; lia|].
    cbn [map].
    match goal with
    | |- context [wrap 123 125 gap indent (?p :: ?ps)] =>
        destruct (@wrap_length 123 125 indent p ps Wi) as [wa L]
    end.
    match type of L with
    | context [join ?sep (?p :: ?ps)] =>
        assert (C : chain (map (fun kv : jsstring * value =>
                                  let (_, x) := kv in need x) (kv :: l))
                    <= length (join sep (p :: ps)) + 1)
    end.
    { apply chain_join; [discriminate|].
      match goal with
      | |- Forall2 _ _ (?p :: ?ps) =>
          change (p :: ps)
            with (map (member_text gap
                         match gap with [] => [] | _ :: _ => [32%N] end
                         (indent ++ gap)) (kv :: l))
      end.
      clear L. induction IH as [|[k x] xs Hx _ IHxs]; cbn [map]; constructor.
      - cbn [snd] in Hx. unfold member_text. rewrite !length_app.
        cbn [length]. rewrite length_app.
        specialize (Hx (indent ++ gap)
                       ltac:(apply Forall_app; split; assumption)).
        lia.
      - exact IHxs. }
    cbn [map] in C. lia.
Qed.

End Bound.

Lemma all_ws_spaces n : all_ws (repeat 32%N n).
Proof. induction n; simpl; constructor; [reflexivity | assumption]. Qed.

(** [JSON.parse] undoes [JSON.stringify], for every value and every
    indentation. *)
Theorem parse_stringify v space : parse (stringify v space) = Some v.
Proof.
  unfold parse, stringify.
  set (gap := repeat 32%N (Nat.min 10 space)).
  assert (Wg : all_ws gap) by apply all_ws_spaces.
  pose proof (@need_bound gap Wg v [] ltac:(constructor)) as B.
  pose proof (@parse_serialize gap Wg v [] (S (length (serialize gap [] v)))
                [] ltac:(constructor) ltac:(lia) I) as P.
  rewrite app_nil_r in P. rewrite P. reflexivity.
Qed.


End JSONFacts.

(* ================================================================= *)
(** ** Text and bytes *)

Lemma surrogate_ranges c :
  (leading_surrogate c = true -> (55296 <= c <= 56319)%N)
  /\ (trailing_surrogate c = true -> (56320 <= c <= 57343)%N).
Proof.
  unfold leading_surrogate, trailing_surrogate.
  split; intros H; apply andb_true_iff in H; destruct H as [A B];
    apply N.leb_le in A, B; lia.
Qed.

Lemma utf16_of_pair c c2 :
  leading_surrogate c = true -> trailing_surrogate c2 = true ->
  utf16_of_point (65536 + (c - 55296) * 1024 + (c2 - 56320)) = [c; c2].
Proof.
  intros L T. apply surrogate_ranges in L. apply surrogate_ranges in T.
  unfold utf16_of_point.
  destruct (N.ltb_spec (65536 + (c - 55296) * 1024 + (c2 - 56320)) 65536);
    [lia|].
  assert (E : (65536 + (c - 55296) * 1024 + (c2 - 56320) - 65536
               = 1024 * (c - 55296) + (c2 - 56320))%N) by lia.
  rewrite E.
  rewrite <- (N.div_unique (1024 * (c - 55296) + (c2 - 56320)) 1024
                (c - 55296) (c2 - 56320)) by lia.
  rewrite <- (N.mod_unique (1024 * (c - 55296) + (c2 - 56320)) 1024
                (c - 55296) (c2 - 56320)) by lia.
  f_equal; [|f_equal]; lia.
Qed.

Lemma utf16_code_points_bounded n : forall s,
  length s <= n -> well_formed_utf16 s = true ->
  flat_map utf16_of_point (code_points s) = s.
Proof.
  induction n as [|n IH]; intros s Hn W.
  - destruct s; [reflexivity | simpl in Hn; lia].
  - destruct s as [|c s]; [reflexivity|].
    cbn [well_formed_utf16 code_points] in *. simpl in Hn.
    destruct (leading_surrogate c) eqn:L.
    + destruct s as [|c2 s]; [discriminate|].
      apply andb_true_iff in W. destruct W as [T W]. rewrite T.
      cbn [flat_map]. rewrite (utf16_of_pair c c2 L T).
      rewrite IH by (simpl in Hn; lia || exact W). reflexivity.
    + apply andb_true_iff in W. destruct W as [W1 W].
      apply andb_true_iff in W1. destruct W1 as [T B].
      apply negb_true_iff in T. rewrite T.
      cbn [flat_map]. unfold utf16_of_point at 1. rewrite B.
      rewrite IH by (lia || exact W). reflexivity.
Qed.

(** A surrogate pair is one code point of four bytes; a lone surrogate is
    written as U+FFFD. *)
Example utf8_surrogate_pair :
  utf8_encode [55357; 56832]%N = [240; 159; 152; 128]%N.
Proof. reflexivity. Qed.

Example utf8_lone_surrogate : utf8_encode [55296]%N = [239; 191; 189]%N.
Proof. reflexivity. Qed.

(** On a well-formed string the conversion replaces nothing: its code
    points spell the string. *)
Lemma utf16_code_points s :
  well_formed_utf16 s = true ->
  flat_map utf16_of_point (code_points s) = s.
Proof. apply (@utf16_code_points_bounded (length s)). lia. Qed.

(** A string of Basic Latin is its own bytes. *)
Lemma utf8_basic_latin s :
  Forall (fun c => (c < 128)%N) s -> utf8_encode s = s.
Proof.
  unfold utf8_encode. induction 1 as [|c s Hc _ IH]; [reflexivity|].
  cbn [code_points]. unfold leading_surrogate, trailing_surrogate.
  destruct (N.leb_spec 55296 c); [lia|].
  destruct (N.leb_spec 56320 c); [lia|]. cbn [andb flat_map].
  rewrite IH. unfold utf8_of_point.
  destruct (N.ltb_spec c 128); [reflexivity | lia].
Qed.

(* ================================================================= *)
(** ** The claims *)

(** C1.  [validateUrl] returns [true] on every string that matches the
    pattern [^(https?://)?(www\.)?(youtube\.com|youtu\.?be)/.+$] and [false]
    on every other string, the empty one included; it is a function of its
    argument alone (same input, same output; it is no handler and touches
    no state).  The pattern is read as ECMAScript reads it: [.] is any code
    unit but a line terminator, [$] is the end of the input. *)
Theorem validateUrl_matches_pattern : forall s : jsstring,
  (Matches youtubeRegex s -> validateUrl s = true)
  /\ (~ Matches youtubeRegex s -> validateUrl s = false)
  /\ (forall s', s' = s -> validateUrl s' = validateUrl s).
Proof.
  intros s. unfold validateUrl. repeat split.
  - apply test_Matches.
  - intros N. destruct (test youtubeRegex s) eqn:T; [|reflexivity].
    apply test_Matches in T. contradiction.
  - intros s' ->. reflexivity.
Qed.

Lemma validateUrl_matches_pattern_witness :
  validateUrl (js "youtu.be/abc123") = true /\ validateUrl [] = false.
Proof.
  split.
  - apply (proj1 (validateUrl_matches_pattern (js "youtu.be/abc123"))).
    apply Matches_youtubeRegex.
    exists [], [], (js "youtu.be"), (js "abc123").
    repeat split; simpl; auto; try discriminate.
    repeat constructor.
  - apply (proj1 (proj2 (validateUrl_matches_pattern []))).
    intros M. apply Matches_youtubeRegex in M.
    destruct M as (a & b & c & d & E & _).
    destruct a; [|discriminate]. destruct b; [|discriminate].
    destruct c; discriminate.
Defined.

(** C3, as written, fails: [youtube/x] is accepted, and its host
    [youtube] is none of [youtube.com], [youtu.be] and [youtu.be] with one
    more period put in anywhere. *)
Lemma youtube_without_period_accepted :
  validateUrl (js "youtube/x") = true
  /\ ~ url_shape listed_hosts (js "youtube/x").
Proof.
  split; [reflexivity|].
  intros (scheme & www & host & tail & E & Hs & Hw & Hh & _).
  simpl in Hs, Hw, Hh.
  repeat match goal with
         | H : _ \/ _ |- _ => destruct H as [<-|H]
         | H : False |- _ => destruct H
         end; discriminate E.
Qed.

(** C3, amended.  [validateUrl s] returns [true] only when [s] is an
    optional [http://] or [https://], an optional [www.], a host equal to
    [youtube.com], [youtu.be] or [youtube] (the period of [youtu.be] left
    out), then [/] and one or more characters; every string that is not of
    that shape is rejected. *)
Theorem validateUrl_only_pattern_shape : forall s : jsstring,
  (validateUrl s = true -> url_shape pattern_hosts s)
  /\ (~ url_shape pattern_hosts s -> validateUrl s = false).
Proof.
  assert (A : forall s, validateUrl s = true -> url_shape pattern_hosts s).
  { intros s V. apply test_Matches, Matches_youtubeRegex in V.
    destruct V as (a & b & c & d & E & Ha & Hb & Hc & Hd & _).
    exists a, b, c, d. auto. }
  intros s. split; [apply A|].
  intros N. destruct (validateUrl s) eqn:V; [|reflexivity].
  destruct N. apply A. exact V.
Qed.

Lemma validateUrl_only_pattern_shape_witness :
  url_shape pattern_hosts (js "youtube/x")
  /\ validateUrl (js "vimeo.com/1") = false.
Proof.
  split.
  - apply (proj1 (validateUrl_only_pattern_shape (js "youtube/x"))).
    reflexivity.
  - apply (proj2 (validateUrl_only_pattern_shape (js "vimeo.com/1"))).
    intros (scheme & www & host & tail & E & Hs & Hw & Hh & _).
    simpl in Hs, Hw, Hh.
    repeat match goal with
           | H : _ \/ _ |- _ => destruct H as [<-|H]
           | H : False |- _ => destruct H
           end; discriminate E.
Defined.

(** C2, as written, fails.  After [submit] of a first and then of a second
    valid URL, both timers are pending; when the first one expires the page
    goes from loading to showing the result while the second call is still
    pending: the first resolution is not discarded. *)
Lemma stale_resolution_not_discarded :
  map timerId (timers overlap_world) = [0; 1]
  /\ visible overlap_world = (true, None, None)
  /\ visible (fire overlap_world) = (false, Some mockResult, None)
  /\ map timerId (timers (fire overlap_world)) = [1]
  /\ ~ discarded overlap_world.
Proof.
  repeat split. intros D. discriminate D.
Qed.

(** C2, amended.  On the page a second submit cannot be issued while a
    call is pending (the submit button is disabled while loading): in every
    world reachable through the page's events, if a timer is pending then
    the form cannot be submitted, and that timer is the only one and the
    last one set, so each resolution belongs to the most recently initiated
    cycle. *)
Theorem one_pending_call_at_most : forall w : World,
  reachable w -> timers w <> [] ->
  step FormSubmit w = None
  /\ exists t, timers w = [t] /\ S (timerId t) = nextTimer w.
Proof.
  intros w Rw T. apply reachable_invariant in Rw.
  unfold page_invariant in Rw. unfold step, submitDisabled.
  destruct (isLoading (ui w)); [|contradiction].
  split; [reflexivity|]. apply Rw.
Qed.

Lemma one_pending_call_at_most_witness :
  step FormSubmit (submit valid_a initialWorld) = None
  /\ exists t, timers (submit valid_a initialWorld) = [t]
               /\ S (timerId t) = nextTimer (submit valid_a initialWorld).
Proof.
  apply (@one_pending_call_at_most (submit valid_a initialWorld)).
  - exists [InputChange valid_a; FormSubmit]. reflexivity.
  - discriminate.
Defined.

(** C4.  From every prior state, [submit(url)] first calls
    [setError(null)] and [setResult(null)], before the branch on validation
    and so before [setIsLoading(true)]; after these calls neither a result
    nor an error is held, no prior result survives the submission, and for
    a valid URL the page ends up loading with result and error cleared. *)
Theorem submit_clears_first : forall (u : jsstring) (w : World),
  let w1 := exec (setUrl u) w in
  (exists rest,
      performed (handleSubmit (ui w1)) w1
      = EpreventDefault :: EsetError None :: EsetResult None :: rest
      /\ (validateUrl u = true ->
          rest = [EsetIsLoading true; EsetTimeout mockResponse 2000])
      /\ (validateUrl u = false ->
          rest = [EsetError (Some invalidUrlMessage)]))
  /\ (let cleared :=
        exec (preventDefault ;; setError None ;; setResult None) w1 in
      result (ui cleared) = None /\ error (ui cleared) = None)
  /\ result (ui (submit u w)) = None
  /\ (validateUrl u = true ->
      visible (submit u w) = (true, None, None)).
Proof.
  intros u w w1. subst w1. unfold submit, performed.
  assert (U : url (ui (exec (setUrl u) w)) = u)
    by (rewrite setUrl_runs; reflexivity).
  assert (C : forall w0,
             let cleared :=
               exec (preventDefault ;; setError None ;; setResult None) w0 in
             result (ui cleared) = None /\ error (ui cleared) = None)
    by (intros w0; open_world w0; split; reflexivity).
  destruct (validateUrl u) eqn:V.
  - rewrite handleSubmit_valid by (rewrite U; exact V).
    cbn [trace ui result]. rewrite skipn_app_exact.
    split; [|split; [apply C | split; reflexivity]].
    eexists. split; [reflexivity|]. split; [reflexivity | discriminate].
  - rewrite handleSubmit_invalid by (rewrite U; exact V).
    cbn [trace ui result]. rewrite skipn_app_exact.
    split; [|split; [apply C | split; [reflexivity | discriminate]]].
    eexists. split; [reflexivity|]. split; [discriminate | reflexivity].
Qed.

Lemma submit_clears_first_witness :
  visible (submit valid_a (fire (submit valid_a initialWorld)))
  = (true, None, None).
Proof.
  apply (submit_clears_first valid_a (fire (submit valid_a initialWorld))).
  reflexivity.
Defined.

(** C5, as written, fails for [handleSubmit] run while the page is
    loading: the invalid URL is rejected and the message set, but the
    loading flag stays true, so the controller is not left in the Failed
    state. *)
Lemma invalid_submit_while_loading_not_failed :
  validateUrl (js "not a url") = false
  /\ visible (submit (js "not a url") (submit valid_a initialWorld))
     = (true, None, Some invalidUrlMessage)
  /\ ~ failed_state (submit (js "not a url") (submit valid_a initialWorld)).
Proof.
  split; [reflexivity|]. split; [reflexivity|].
  intros (m & _ & E). discriminate E.
Qed.

(** C5, amended.  For every [url] that [validateUrl] rejects, [submit(url)]
    sets no timer (no backend call), never calls [setIsLoading] (the
    loading flag stays as it was), leaves no result, and leaves the
    non-empty message [Please enter a valid YouTube URL] as the error; when
    the page is not loading at that moment, as is always the case when the
    form can be submitted, the controller is left in the Failed state. *)
Theorem invalid_submit_fails_locally : forall (u : jsstring) (w : World),
  validateUrl u = false ->
  let w' := submit u w in
  timers w' = timers w
  /\ nextTimer w' = nextTimer w
  /\ isLoading (ui w') = isLoading (ui w)
  /\ result (ui w') = None
  /\ error (ui w') = Some invalidUrlMessage
  /\ invalidUrlMessage <> []
  /\ trace w' = trace w ++ [EsetUrl u; EpreventDefault; EsetError None;
                            EsetResult None;
                            EsetError (Some invalidUrlMessage)]
  /\ (isLoading (ui w) = false -> failed_state w')
  /\ (step FormSubmit (exec (setUrl u) w) <> None ->
      isLoading (ui w) = false).
Proof.
  intros u w V w'. subst w'. unfold submit.
  rewrite handleSubmit_invalid by (rewrite setUrl_runs; exact V).
  rewrite setUrl_runs. unfold failed_state, visible, step, submitDisabled.
  cbn [ui timers nextTimer trace isLoading result error url].
  rewrite <- app_assoc.
  split; [reflexivity|]. split; [reflexivity|]. split; [reflexivity|].
  split; [reflexivity|]. split; [reflexivity|]. split; [discriminate|].
  split; [reflexivity|]. split.
  - intros L. exists invalidUrlMessage. rewrite L.
    split; [discriminate | reflexivity].
  - intros H. destruct (isLoading (ui w)); [|reflexivity].
    exfalso. apply H. reflexivity.
Qed.

Lemma invalid_submit_fails_locally_witness :
  failed_state (submit (js "not a url") initialWorld)
  /\ timers (submit (js "not a url") initialWorld) = [].
Proof.
  destruct (@invalid_submit_fails_locally (js "not a url") initialWorld)
    as (T & _ & _ & _ & _ & _ & _ & F & _).
  - reflexivity.
  - split; [apply F; reflexivity | exact T].
Defined.

(** C6.  With no current result, [handleDownload] returns at once for both
    kinds: the world is unchanged (no blob, no element, no click, no call
    in the trace), no file is saved, and the handler ends normally. *)
Theorem export_without_result_is_noop :
  forall (snap : State) (type : DownloadType) (w : World),
    result snap = None ->
    handleDownload snap type w = (tt, w)
    /\ exported type (with_ui (fun _ => snap) w) = [].
Proof.
  intros snap type w R. split.
  - apply handleDownload_none. exact R.
  - unfold exported, exec. rewrite handleDownload_none.
    + cbn [snd]. apply skipn_all.
    + destruct w. exact R.
Qed.

Lemma export_without_result_is_noop_witness :
  handleDownload initialState Tjson initialWorld = (tt, initialWorld)
  /\ handleDownload initialState Ttranscript initialWorld = (tt, initialWorld).
Proof.
  split.
  - apply (@export_without_result_is_noop initialState Tjson initialWorld).
    reflexivity.
  - apply (@export_without_result_is_noop initialState Ttranscript initialWorld).
    reflexivity.
Defined.

(** C7.  For every current result whose transcript is well-formed UTF-16
    (no lone surrogate), the transcript export saves exactly one file,
    [sales-analysis.txt], of type [text/plain], whose bytes are the UTF-8
    encoding of the [transcript] field as it is: the code points encoded
    are those of the transcript, none replaced, and for a transcript of
    Basic Latin the bytes are its code units.  This holds after any sequence
    of earlier exports of either kind. *)
Theorem transcript_export_verbatim :
  forall (w : World) (r : AnalysisResult) (earlier : list DownloadType),
    result (ui w) = Some r ->
    well_formed_utf16 (transcript r) = true ->
    exported Ttranscript (export_all earlier w)
    = [ {| fileName := js "sales-analysis.txt";
           mimeType := js "text/plain";
           content := flat_map utf8_of_point (code_points (transcript r)) |} ]
    /\ flat_map utf16_of_point (code_points (transcript r)) = transcript r
    /\ (Forall (fun c => (c < 128)%N) (transcript r) ->
        exported Ttranscript (export_all earlier w)
        = [ {| fileName := js "sales-analysis.txt";
               mimeType := js "text/plain";
               content := transcript r |} ]).
Proof.
  intros w r earlier R W.
  assert (E : exported Ttranscript (export_all earlier w)
              = [file_of r Ttranscript]).
  { apply (@exported_file (export_all earlier w) r Ttranscript).
    rewrite export_all_ui. exact R. }
  rewrite E. cbn [file_of]. split; [reflexivity|]. split.
  - apply utf16_code_points. exact W.
  - intros A. rewrite (utf8_basic_latin A). reflexivity.
Qed.

Lemma transcript_export_verbatim_witness :
  exported Ttranscript
    (export_all [Tjson; Ttranscript] (fire (submit valid_a initialWorld)))
  = [ {| fileName := js "sales-analysis.txt";
         mimeType := js "text/plain";
         content := transcript mockResult |} ].
Proof.
  apply (@transcript_export_verbatim
           (fire (submit valid_a initialWorld)) mockResult
           [Tjson; Ttranscript]).
  - reflexivity.
  - reflexivity.
  - vm_compute. repeat constructor.
Defined.

(** C9.  For every valid URL, [submit] sets one timer of 2000 ms with the
    mock callback; that callback sets the same result [mockResult] in every
    world, whatever the URL; when it is the pending call that resolves, the
    page shows exactly that result.  [mockResult] has all six properties,
    its ratio is within 0..100, its counts are non-negative, its sentiment
    is one of the three, its insights and transcript are not empty. *)
Theorem mock_backend_result : forall (u : jsstring) (w : World),
  validateUrl u = true ->
  timers (submit u w) = timers w ++ [mkTimer (nextTimer w) mockResponse 2000]
  /\ (forall w', result (ui (exec (run_callback mockResponse) w'))
                 = Some mockResult)
  /\ (timers w = [] ->
      visible (fire (submit u w)) = (false, Some mockResult, None))
  /\ well_formed mockResult
  /\ (exists members,
         toValue mockResult = JSON.Obj members
         /\ map fst members
            = [ js "talkTimeRatio"; js "questionsCount";
                js "longestMonologue"; js "sentiment"; js "insights";
                js "transcript" ])
  /\ insights mockResult <> [] /\ transcript mockResult <> [].
Proof.
  intros u w V.
  assert (E : submit u w =
              mkWorld (mkUi u true None None)
                (timers w ++ [mkTimer (nextTimer w) mockResponse 2000])
                (S (nextTimer w)) (objectURLs w) (nextURL w)
                (elements w) (nextElement w) (body w) (downloads w)
                (trace w ++ [EsetUrl u; EpreventDefault; EsetError None;
                             EsetResult None; EsetIsLoading true;
                             EsetTimeout mockResponse 2000])).
  { unfold submit.
    rewrite handleSubmit_valid by (rewrite setUrl_runs; exact V).
    rewrite setUrl_runs. cbn [ui timers nextTimer objectURLs nextURL elements
                               nextElement body downloads trace url].
    rewrite <- app_assoc. reflexivity. }
  split; [rewrite E; reflexivity|].
  split; [intros w'; rewrite callback_runs; reflexivity|].
  split.
  { intros T. rewrite E, T. unfold fire. cbn [timers app callback].
    rewrite callback_runs. reflexivity. }
  split.
  { unfold well_formed. cbn. repeat split; try lia. left; reflexivity. }
  split; [eexists; split; reflexivity|].
  split; discriminate.
Qed.

Lemma mock_backend_result_witness :
  visible (fire (submit valid_a initialWorld)) = (false, Some mockResult, None)
  /\ visible (fire (submit valid_b initialWorld)) = (false, Some mockResult, None).
Proof.
  split.
  - apply (@mock_backend_result valid_a initialWorld); reflexivity.
  - apply (@mock_backend_result valid_b initialWorld); reflexivity.
Defined.

(** C10, as written, fails for [handleSubmit] taken alone: in a world the
    page reaches (loading, the input edited to an invalid URL) the invariant
    holds, and running [handleSubmit] there leaves loading true together
    with an error message. *)
Lemma handleSubmit_while_loading_shows_error :
  run [InputChange valid_a; FormSubmit; InputChange (js "not a url")]
      initialWorld = Some loading_world
  /\ loading_shows_nothing (ui loading_world)
  /\ visible (exec (handleSubmit (ui loading_world)) loading_world)
     = (true, None, Some invalidUrlMessage)
  /\ ~ loading_shows_nothing
         (ui (exec (handleSubmit (ui loading_world)) loading_world)).
Proof.
  split; [reflexivity|]. split; [intros _; split; reflexivity|].
  split; [reflexivity|].
  intros I. destruct (I eq_refl) as [_ E]. discriminate E.
Qed.

(** C10, amended.  In every world reachable through the page's events
    (input edits, submits while the button is enabled, timer expiry, export
    clicks), whenever the loading flag is true both the result and the error
    are null. *)
Theorem loading_shows_nothing_on_page : forall w : World,
  reachable w -> loading_shows_nothing (ui w).
Proof.
  intros w Rw L. apply reachable_invariant in Rw.
  unfold page_invariant in Rw. rewrite L in Rw.
  destruct Rw as (R & E & _). split; assumption.
Qed.

Lemma loading_shows_nothing_on_page_witness :
  isLoading (ui (submit valid_a initialWorld)) = true
  /\ loading_shows_nothing (ui (submit valid_a initialWorld)).
Proof.
  split; [reflexivity|].
  apply (@loading_shows_nothing_on_page (submit valid_a initialWorld)).
  exists [InputChange valid_a; FormSubmit]. reflexivity.
Defined.



(* ================================================================= *)
(** * Beyond the claims *)

(* ================================================================= *)
(** ** Further facts on the handlers *)

Lemma remove_key_head {A} k (v : A) l :
  remove_key k ((k, v) :: l) = remove_key k l.
Proof. simpl. rewrite Nat.eqb_refl. reflexivity. Qed.

Lemma remove_key_absent {A} k (l : list (nat * A)) :
  lookup k l = None -> remove_key k l = l.
Proof.
  induction l as [|[k' v] l IH]; simpl; [reflexivity|].
  destruct (Nat.eqb k k'); [discriminate|].
  intros H. rewrite IH by exact H. reflexivity.
Qed.

Lemma filter_other_absent a l :
  ~ In a l -> filter (fun x => negb (Nat.eqb x a)) (l ++ [a]) = l.
Proof.
  intros N. rewrite filter_app. simpl. rewrite Nat.eqb_refl. simpl.
  rewrite app_nil_r. induction l as [|x l IH]; simpl; [reflexivity|].
  destruct (Nat.eqb_spec x a) as [->|_].
  - exfalso. apply N. left. reflexivity.
  - simpl. rewrite IH; [reflexivity|]. intros I. apply N. right. exact I.
Qed.

(** The whole effect of the anchor dance. *)
Lemma anchor_download_world blob name w :
  exec (downloadUrl <- createObjectURL blob ;;
        a <- createElement_a ;;
        set_href a downloadUrl ;;
        set_download a name ;;
        appendChild a ;;
        click a ;;
        removeChild a ;;
        revokeObjectURL downloadUrl) w
  = mkWorld (ui w) (timers w) (nextTimer w)
      (remove_key (nextURL w) (objectURLs w)) (S (nextURL w))
      ((nextElement w, mkAnchor (Some (nextURL w)) (Some name)) :: elements w)
      (S (nextElement w))
      (filter (fun x => negb (Nat.eqb x (nextElement w)))
              (body w ++ [nextElement w]))
      (downloads w
         ++ [mkDownload name (blobType blob)
                        (concat (map utf8_encode (blobParts blob)))])
      (trace w ++ [EcreateObjectURL blob; EcreateElement;
                   EsetHref (nextElement w) (nextURL w);
                   EsetDownload (nextElement w) name;
                   EappendChild (nextElement w); Eclick (nextElement w);
                   EremoveChild (nextElement w);
                   ErevokeObjectURL (nextURL w)]).
Proof.
  open_world w. rewrite !Nat.eqb_refl. run_handler. rewrite ?Nat.eqb_refl.
  run_handler. rewrite remove_key_head, <- !app_assoc. reflexivity.
Qed.

Lemma handleDownload_world w r type :
  result (ui w) = Some r ->
  exec (handleDownload (ui w) type) w
  = mkWorld (ui w) (timers w) (nextTimer w)
      (remove_key (nextURL w) (objectURLs w)) (S (nextURL w))
      ((nextElement w,
        mkAnchor (Some (nextURL w)) (Some (fileName (file_of r type))))
         :: elements w)
      (S (nextElement w))
      (filter (fun x => negb (Nat.eqb x (nextElement w)))
              (body w ++ [nextElement w]))
      (downloads w ++ [file_of r type])
      (trace w ++ [EcreateObjectURL (blob_of r type); EcreateElement;
                   EsetHref (nextElement w) (nextURL w);
                   EsetDownload (nextElement w) (fileName (file_of r type));
                   EappendChild (nextElement w); Eclick (nextElement w);
                   EremoveChild (nextElement w);
                   ErevokeObjectURL (nextURL w)]).
Proof.
  intros R. unfold handleDownload. rewrite R.
  destruct type; cbv zeta; rewrite anchor_download_world;
    cbn [blobType blobParts concat map]; rewrite app_nil_r; reflexivity.
Qed.

(* ================================================================= *)
(** ** Everything the page maintains *)

Lemma count_app (p : Effect -> bool) (t extra : list Effect) :
  length (filter p (t ++ extra)) = length (filter p t) + length (filter p extra).
Proof. rewrite filter_app, length_app. reflexivity. Qed.

Lemma step_invariant_full e w w' :
  page_invariant_full w -> step e w = Some w' -> page_invariant_full w'.
Proof.
  intros (I & F & B & U & T & C & N) H.
  assert (I' : page_invariant w') by (eapply step_invariant; eassumption).
  split; [exact I'|]. clear I'.
  unfold calls_issued, calls_resolved, visible in *.
  destruct e as [v | | | type]; simpl in H.
  - injection H as <-. rewrite setUrl_runs.
    cbn [ui timers nextTimer objectURLs body trace isLoading result error].
    rewrite !count_app. cbn [filter is_setTimeout is_resolution length].
    repeat split; try assumption; lia.
  - unfold submitDisabled in H.
    destruct (isLoading (ui w)) eqn:L; simpl in H; [discriminate|].
    destruct (url (ui w)) eqn:Eu; [discriminate|].
    injection H as <-.
    unfold page_invariant in I. rewrite L in I.
    destruct (validateUrl (url (ui w))) eqn:V.
    + rewrite (handleSubmit_valid _ V).
      cbn [ui timers nextTimer objectURLs body trace isLoading result error].
      rewrite !count_app. cbn [filter is_setTimeout is_resolution length].
      rewrite I in *. cbn [app length] in *.
      repeat split; try assumption; try lia.
      * right; left; reflexivity.
      * repeat constructor.
    + rewrite (handleSubmit_invalid _ V).
      cbn [ui timers nextTimer objectURLs body trace isLoading result error].
      rewrite !count_app. cbn [filter is_setTimeout is_resolution length].
      rewrite L.
      repeat split; try assumption; try lia.
      do 3 right; left; reflexivity.
  - unfold fire in H. destruct (timers w) as [|t ts] eqn:Et; [discriminate|].
    injection H as <-.
    inversion T as [|t0 ts0 [Cb _] Tts]; subst. rewrite Cb.
    rewrite callback_runs.
    cbn [ui timers nextTimer objectURLs body trace isLoading result error
         with_timers].
    rewrite !count_app. cbn [filter is_setTimeout is_resolution length].
    unfold page_invariant in I. rewrite Et in I.
    destruct (isLoading (ui w)); [|discriminate I].
    destruct I as (_ & E & _). rewrite E.
    cbn [length] in C.
    repeat split; try assumption; try lia.
    do 2 right; left; reflexivity.
  - destruct (result (ui w)) as [r|] eqn:R; [|discriminate].
    injection H as <-. rewrite (handleDownload_world w type R).
    cbn [ui timers nextTimer objectURLs body trace isLoading result error].
    rewrite !count_app. cbn [filter is_setTimeout is_resolution length].
    rewrite B, U. cbn [app filter remove_key]. rewrite Nat.eqb_refl.
    repeat split; try assumption; try lia.
    rewrite R. exact F.
Qed.

Lemma run_invariant_full es : forall w w',
  page_invariant_full w -> run es w = Some w' -> page_invariant_full w'.
Proof.
  induction es as [|e es IH]; intros w w' I H; simpl in H.
  - injection H as <-. exact I.
  - destruct (step e w) as [w1|] eqn:S1; [|discriminate].
    eapply IH; [|exact H]. eapply step_invariant_full; eassumption.
Qed.

Lemma reachable_invariant_full w : reachable w -> page_invariant_full w.
Proof.
  intros [es H]. eapply run_invariant_full; [|exact H].
  repeat split; try reflexivity.
  - left; reflexivity.
  - constructor.
Qed.

Lemma run_app es1 : forall es2 w w1,
  run es1 w = Some w1 -> run (es1 ++ es2) w = run es2 w1.
Proof.
  induction es1 as [|e es1 IH]; intros es2 w w1 H; simpl in *.
  - injection H as <-. reflexivity.
  - destruct (step e w) as [w0|]; [|discriminate]. apply IH. exact H.
Qed.

Lemma reachable_run es w w' :
  reachable w -> run es w = Some w' -> reachable w'.
Proof.
  intros [es0 H0] H. exists (es0 ++ es).
  rewrite (@run_app es0 es initialWorld w H0). exact H.
Qed.

(* ================================================================= *)
(** ** Further properties of [validateUrl] *)

Lemma accepted_shape s :
  validateUrl s = true <->
  exists scheme www host tail,
    s = scheme ++ www ++ host ++ [47%N] ++ tail
    /\ In scheme schemes /\ In www www_prefixes /\ In host pattern_hosts
    /\ tail <> [] /\ Forall (fun c => isLineTerminator c = false) tail.
Proof.
  unfold validateUrl. rewrite test_Matches. apply Matches_youtubeRegex.
Qed.

Lemma fixed_parts_plain scheme www host :
  In scheme schemes -> In www www_prefixes -> In host pattern_hosts ->
  Forall (fun c => isLineTerminator c = false)
         (scheme ++ www ++ host ++ [47%N]).
Proof.
  intros Hs Hw Hh. simpl in Hs, Hw, Hh.
  repeat match goal with
         | H : _ \/ _ |- _ => destruct H as [<-|H]
         | H : False |- _ => destruct H
         end; repeat constructor.
Qed.

(** X1.  [validateUrl] accepts exactly the strings made of an optional
    [http://] or [https://], an optional [www.], one of the hosts
    [youtube.com], [youtu.be], [youtube], a slash, and a non-empty rest
    that holds no line terminator (LF, CR, U+2028, U+2029). *)
Theorem validateUrl_exact_shape : forall s : jsstring,
  validateUrl s = true <->
  exists scheme www host tail,
    s = scheme ++ www ++ host ++ [47%N] ++ tail
    /\ In scheme schemes /\ In www www_prefixes /\ In host pattern_hosts
    /\ tail <> [] /\ Forall (fun c => isLineTerminator c = false) tail.
Proof. exact accepted_shape. Qed.

Lemma validateUrl_exact_shape_witness :
  validateUrl (js "https://www.youtube.com/watch?v=abc123") = true.
Proof.
  apply (proj2 (validateUrl_exact_shape
                  (js "https://www.youtube.com/watch?v=abc123"))).
  exists (js "https://"), (js "www."), (js "youtube.com"),
         (js "watch?v=abc123").
  split; [reflexivity|]. simpl. repeat split; auto; try discriminate.
  repeat constructor.
Defined.

(** X2.  A string that holds a line terminator anywhere is rejected: a
    pasted URL that ends in a newline does not validate. *)
Theorem validateUrl_rejects_line_terminators : forall (s : jsstring) (c : N),
  In c s -> isLineTerminator c = true -> validateUrl s = false.
Proof.
  intros s c I L. destruct (validateUrl s) eqn:V; [|reflexivity].
  apply accepted_shape in V.
  destruct V as (scheme & www & host & tail & -> & Hs & Hw & Hh & _ & F).
  pose proof (@fixed_parts_plain scheme www host Hs Hw Hh) as P.
  assert (A : Forall (fun c => isLineTerminator c = false)
                     ((scheme ++ www ++ host ++ [47%N]) ++ tail))
    by (apply Forall_app; split; assumption).
  rewrite <- !app_assoc in A. rewrite Forall_forall in A.
  specialize (A c I). congruence.
Qed.

Lemma validateUrl_rejects_line_terminators_witness :
  validateUrl (js "https://youtu.be/abc123" ++ [LF]) = false.
Proof.
  apply (@validateUrl_rejects_line_terminators
           (js "https://youtu.be/abc123" ++ [LF]) LF).
  - apply in_or_app. right. left. reflexivity.
  - reflexivity.
Defined.

(** X3.  Whatever follows an accepted URL is accepted with it, as long as
    it holds no line terminator: spaces and further text after the path
    pass validation. *)
Theorem validateUrl_accepts_any_continuation : forall s t : jsstring,
  validateUrl s = true ->
  Forall (fun c => isLineTerminator c = false) t ->
  validateUrl (s ++ t) = true.
Proof.
  intros s t V Ft. apply accepted_shape in V. apply accepted_shape.
  destruct V as (scheme & www & host & tail & -> & Hs & Hw & Hh & Hne & F).
  exists scheme, www, host, (tail ++ t).
  rewrite <- !app_assoc. repeat split; try assumption.
  - destruct tail; [congruence | discriminate].
  - apply Forall_app. split; assumption.
Qed.

Lemma validateUrl_accepts_any_continuation_witness :
  validateUrl (js "youtu.be/abc123" ++ js "  and more text") = true.
Proof.
  apply (@validateUrl_accepts_any_continuation
           (js "youtu.be/abc123") (js "  and more text")).
  - reflexivity.
  - repeat constructor.
Defined.

(** X4.  The pattern is anchored at the start and the input is not
    trimmed: a string whose first character is none of [h], [w], [y] is
    rejected, so leading white space makes a URL invalid. *)
Theorem validateUrl_rejects_leading_text : forall (c : N) (s : jsstring),
  c <> 104%N -> c <> 119%N -> c <> 121%N -> validateUrl (c :: s) = false.
Proof.
  intros c s Nh Nw Ny. destruct (validateUrl (c :: s)) eqn:V; [|reflexivity].
  apply accepted_shape in V.
  destruct V as (scheme & www & host & tail & E & Hs & Hw & Hh & _).
  simpl in Hs, Hw, Hh.
  repeat match goal with
         | H : _ \/ _ |- _ => destruct H as [<-|H]
         | H : False |- _ => destruct H
         end; injection E as E _; congruence.
Qed.

Lemma validateUrl_rejects_leading_text_witness :
  validateUrl (32%N :: js "https://youtu.be/abc123") = false.
Proof.
  apply (@validateUrl_rejects_leading_text 32%N (js "https://youtu.be/abc123"));
    discriminate.
Defined.

(* ================================================================= *)
(** ** Further properties of the submit cycle *)

Lemma valid_not_empty u : validateUrl u = true -> u <> [].
Proof. intros V ->. discriminate V. Qed.

Lemma submit_step u w :
  isLoading (ui w) = false -> u <> [] ->
  run [InputChange u; FormSubmit] w = Some (submit u w).
Proof.
  intros L Hu. unfold submit. cbn [run step].
  assert (D : submitDisabled (ui (exec (setUrl u) w)) = false).
  { rewrite setUrl_runs. unfold submitDisabled. cbn [ui isLoading url].
    rewrite L. destruct u; [congruence | reflexivity]. }
  rewrite D. reflexivity.
Qed.

Lemma submit_valid_world u w :
  validateUrl u = true ->
  submit u w =
  mkWorld (mkUi u true None None)
    (timers w ++ [mkTimer (nextTimer w) mockResponse 2000])
    (S (nextTimer w)) (objectURLs w) (nextURL w)
    (elements w) (nextElement w) (body w) (downloads w)
    (trace w ++ [EsetUrl u; EpreventDefault; EsetError None;
                 EsetResult None; EsetIsLoading true;
                 EsetTimeout mockResponse 2000]).
Proof.
  intros V. unfold submit.
  rewrite handleSubmit_valid by (rewrite setUrl_runs; exact V).
  rewrite setUrl_runs. cbn [ui timers nextTimer objectURLs nextURL elements
                             nextElement body downloads trace url].
  rewrite <- app_assoc. reflexivity.
Qed.

Lemma submit_invalid_world u w :
  validateUrl u = false ->
  submit u w =
  mkWorld (mkUi u (isLoading (ui w)) None (Some invalidUrlMessage))
    (timers w) (nextTimer w) (objectURLs w) (nextURL w)
    (elements w) (nextElement w) (body w) (downloads w)
    (trace w ++ [EsetUrl u; EpreventDefault; EsetError None;
                 EsetResult None; EsetError (Some invalidUrlMessage)]).
Proof.
  intros V. unfold submit.
  rewrite handleSubmit_invalid by (rewrite setUrl_runs; exact V).
  rewrite setUrl_runs. cbn [ui timers nextTimer objectURLs nextURL elements
                             nextElement body downloads trace url isLoading].
  rewrite <- app_assoc. reflexivity.
Qed.

(** X5.  The page is always in one of four states: idle (nothing held),
    loading (nothing held), a result (the mock one, no error), or an error
    (the invalid-URL message, no result).  A result and an error are never
    held together. *)
Theorem page_has_four_faces : forall w : World,
  reachable w ->
  visible w = (false, None, None)
  \/ visible w = (true, None, None)
  \/ visible w = (false, Some mockResult, None)
  \/ visible w = (false, None, Some invalidUrlMessage).
Proof.
  intros w Rw. apply reachable_invariant_full in Rw.
  destruct Rw as (_ & F & _). unfold page_faces in F. simpl in F.
  destruct F as [F|[F|[F|[F|[]]]]]; rewrite <- F; auto.
Qed.

Lemma page_has_four_faces_witness :
  visible (submit (js "not a url") initialWorld) = (false, None, None)
  \/ visible (submit (js "not a url") initialWorld) = (true, None, None)
  \/ visible (submit (js "not a url") initialWorld)
     = (false, Some mockResult, None)
  \/ visible (submit (js "not a url") initialWorld)
     = (false, None, Some invalidUrlMessage).
Proof.
  apply (@page_has_four_faces (submit (js "not a url") initialWorld)).
  exists [InputChange (js "not a url"); FormSubmit]. reflexivity.
Defined.

(** X6.  Loading always ends: whenever the page is loading, a timer is
    pending, and when it expires the page shows the mock result, is no
    longer loading and has no timer left. *)
Theorem loading_ends_in_success : forall w : World,
  reachable w -> isLoading (ui w) = true ->
  exists w', step TimerFires w = Some w'
             /\ visible w' = (false, Some mockResult, None)
             /\ timers w' = [].
Proof.
  intros w Rw L. apply reachable_invariant_full in Rw.
  destruct Rw as (I & _ & _ & _ & T & _).
  unfold page_invariant in I. rewrite L in I.
  destruct I as (_ & E & t & Et & _).
  exists (fire w). unfold step, fire. rewrite Et in *.
  inversion T as [|t0 ts0 [Cb _] _]; subst. rewrite Cb, callback_runs.
  cbn [visible ui timers isLoading result error with_timers].
  rewrite E. repeat split.
Qed.

Lemma loading_ends_in_success_witness :
  exists w', step TimerFires (submit valid_a initialWorld) = Some w'
             /\ visible w' = (false, Some mockResult, None)
             /\ timers w' = [].
Proof.
  apply (@loading_ends_in_success (submit valid_a initialWorld)).
  - exists [InputChange valid_a; FormSubmit]. reflexivity.
  - reflexivity.
Defined.

(** X7.  From every state of the page that is not loading, typing a valid
    URL, submitting and waiting for the timer goes through: the three
    events are all deliverable and end with the mock result shown, the
    typed URL still in the input, and no timer pending. *)
Theorem valid_cycle_succeeds : forall (w : World) (u : jsstring),
  reachable w -> isLoading (ui w) = false -> validateUrl u = true ->
  exists w', run [InputChange u; FormSubmit; TimerFires] w = Some w'
             /\ visible w' = (false, Some mockResult, None)
             /\ url (ui w') = u
             /\ timers w' = [].
Proof.
  intros w u Rw L V. apply reachable_invariant in Rw.
  unfold page_invariant in Rw. rewrite L in Rw.
  pose proof (@submit_step u w L (@valid_not_empty u V)) as S2.
  exists (fire (submit u w)).
  change [InputChange u; FormSubmit; TimerFires]
    with ([InputChange u; FormSubmit] ++ [TimerFires]).
  rewrite (@run_app _ [TimerFires] w (submit u w) S2).
  rewrite (@submit_valid_world u w V). rewrite Rw.
  cbn [run step timers app]. unfold fire. cbn [timers callback].
  rewrite callback_runs. repeat split.
Qed.

Lemma valid_cycle_succeeds_witness :
  exists w', run [InputChange valid_b; FormSubmit; TimerFires]
                 (fire (submit valid_a initialWorld)) = Some w'
             /\ visible w' = (false, Some mockResult, None)
             /\ url (ui w') = valid_b
             /\ timers w' = [].
Proof.
  apply (@valid_cycle_succeeds (fire (submit valid_a initialWorld)) valid_b).
  - exists [InputChange valid_a; FormSubmit; TimerFires]. vm_compute. reflexivity.
  - reflexivity.
  - reflexivity.
Defined.

(** X8.  From every state of the page that is not loading, typing a
    non-empty invalid URL and submitting ends at once with the error
    message shown, any earlier result gone, the page not loading and no
    timer pending. *)
Theorem invalid_cycle_fails : forall (w : World) (u : jsstring),
  reachable w -> isLoading (ui w) = false ->
  u <> [] -> validateUrl u = false ->
  exists w', run [InputChange u; FormSubmit] w = Some w'
             /\ visible w' = (false, None, Some invalidUrlMessage)
             /\ timers w' = [].
Proof.
  intros w u Rw L Hu V. apply reachable_invariant in Rw.
  unfold page_invariant in Rw. rewrite L in Rw.
  exists (submit u w). split; [apply submit_step; assumption|].
  rewrite (@submit_invalid_world u w V).
  cbn [visible ui timers isLoading result error]. rewrite L, Rw.
  split; reflexivity.
Qed.

Lemma invalid_cycle_fails_witness :
  exists w', run [InputChange (js "not a url"); FormSubmit]
                 (fire (submit valid_a initialWorld)) = Some w'
             /\ visible w' = (false, None, Some invalidUrlMessage)
             /\ timers w' = [].
Proof.
  apply (@invalid_cycle_fails (fire (submit valid_a initialWorld))
                              (js "not a url")).
  - exists [InputChange valid_a; FormSubmit; TimerFires]. vm_compute. reflexivity.
  - reflexivity.
  - discriminate.
  - reflexivity.
Defined.



(** X10.  Every backend call resolves at most once and none is lost: on
    the page the number of timers set equals the number of results
    delivered plus the number of timers pending, the identifier of the next
    timer is the number of timers set, and at most one timer is pending. *)
Theorem calls_are_accounted_for : forall w : World,
  reachable w ->
  calls_issued w = calls_resolved w + length (timers w)
  /\ nextTimer w = calls_issued w
  /\ length (timers w) <= 1.
Proof.
  intros w Rw. apply reachable_invariant_full in Rw.
  destruct Rw as (I & _ & _ & _ & _ & C & N).
  split; [exact C|]. split; [exact N|].
  unfold page_invariant in I. destruct (isLoading (ui w)).
  - destruct I as (_ & _ & t & -> & _). simpl. lia.
  - rewrite I. simpl. lia.
Qed.

Lemma calls_are_accounted_for_witness :
  calls_issued overlap_world = 2 /\ calls_resolved (fire overlap_world) = 1
  /\ calls_issued (fire (submit valid_a initialWorld))
     = calls_resolved (fire (submit valid_a initialWorld))
       + length (timers (fire (submit valid_a initialWorld))).
Proof.
  split; [reflexivity|]. split; [reflexivity|].
  apply (@calls_are_accounted_for (fire (submit valid_a initialWorld))).
  exists [InputChange valid_a; FormSubmit; TimerFires]. vm_compute. reflexivity.
Defined.

(* ================================================================= *)
(** ** Further properties of the exports *)

(** X11.  [handleDownload] cleans up after itself: when the identifiers it
    is given are fresh, the document body and the store of object URLs are
    after the call what they were before it (the anchor is removed, the URL
    revoked), whatever the kind. *)
Theorem handleDownload_restores_dom :
  forall (w : World) (r : AnalysisResult) (type : DownloadType),
    result (ui w) = Some r ->
    ~ In (nextElement w) (body w) ->
    lookup (nextURL w) (objectURLs w) = None ->
    body (exec (handleDownload (ui w) type) w) = body w
    /\ objectURLs (exec (handleDownload (ui w) type) w) = objectURLs w.
Proof.
  intros w r type R Fb Fu. rewrite (@handleDownload_world w r type R).
  cbn [body objectURLs]. split.
  - apply filter_other_absent. exact Fb.
  - apply remove_key_absent. exact Fu.
Qed.

Lemma handleDownload_restores_dom_witness :
  body (exec (handleDownload (ui (fire (submit valid_a initialWorld))) Tjson)
             (fire (submit valid_a initialWorld))) = []
  /\ objectURLs
       (exec (handleDownload (ui (fire (submit valid_a initialWorld))) Tjson)
             (fire (submit valid_a initialWorld))) = [].
Proof.
  apply (@handleDownload_restores_dom
           (fire (submit valid_a initialWorld)) mockResult Tjson).
  - reflexivity.
  - intros [].
  - reflexivity.
Defined.

(** X12.  The page leaks nothing: in every state it reaches, no anchor is
    left in the document body and no object URL is left alive. *)
Theorem page_leaves_no_dom_garbage : forall w : World,
  reachable w -> body w = [] /\ objectURLs w = [].
Proof.
  intros w Rw. apply reachable_invariant_full in Rw.
  destruct Rw as (_ & _ & B & U & _). split; assumption.
Qed.

Lemma page_leaves_no_dom_garbage_witness :
  body (export_all [Tjson; Ttranscript] (fire (submit valid_a initialWorld)))
  = []
  /\ objectURLs
       (export_all [Tjson; Ttranscript] (fire (submit valid_a initialWorld)))
     = [].
Proof.
  apply (@page_leaves_no_dom_garbage
           (export_all [Tjson; Ttranscript]
                       (fire (submit valid_a initialWorld)))).
  exists [InputChange valid_a; FormSubmit; TimerFires;
          DownloadClick Tjson; DownloadClick Ttranscript].
  vm_compute. reflexivity.
Defined.

(** X13.  Exports add up: a sequence of export calls saves one file per
    call, in the order of the calls, each the file of its kind, and leaves
    the files saved before in place. *)
Theorem exports_save_one_file_each :
  forall (types : list DownloadType) (w : World) (r : AnalysisResult),
    result (ui w) = Some r ->
    downloads (export_all types w) = downloads w ++ map (file_of r) types.
Proof.
  induction types as [|type types IH]; intros w r R.
  - simpl. rewrite app_nil_r. reflexivity.
  - cbn [export_all fold_left map]. fold (export_all types).
    destruct (@handleDownload_runs w r type R) as (U & _ & _ & D).
    rewrite (IH _ r) by (rewrite U; exact R).
    rewrite D, <- app_assoc. reflexivity.
Qed.

Lemma exports_save_one_file_each_witness :
  map fileName
      (downloads (export_all [Ttranscript; Tjson; Ttranscript]
                             (fire (submit valid_a initialWorld))))
  = [js "sales-analysis.txt"; js "sales-analysis.json";
     js "sales-analysis.txt"].
Proof.
  rewrite (@exports_save_one_file_each
             [Ttranscript; Tjson; Ttranscript]
             (fire (submit valid_a initialWorld)) mockResult).
  - reflexivity.
  - reflexivity.
Defined.



(* ================================================================= *)
(** ** Properties of the styling and of the rendered page *)

(** X16.  The icon and the label of a sentiment always carry the same
    colour: for every value, known or not, the class of the icon is
    [h-5 w-5] followed by the class [getSentimentColor] gives. *)
Theorem icon_colour_matches_text_colour : forall value : jsstring,
  iconClass (getSentimentIcon value) = js "h-5 w-5 " ++ getSentimentColor value.
Proof.
  intros value. unfold getSentimentIcon, getSentimentColor.
  destruct (string_eqb value (js "positive")); [reflexivity|].
  destruct (string_eqb value (js "negative")); reflexivity.
Qed.

(** X17.  The three sentiments are told apart by colour, and the check
    mark is the icon of [positive] alone. *)
Theorem sentiments_have_distinct_colours : forall a b : Sentiment,
  (getSentimentColor (sentiment_string a)
   = getSentimentColor (sentiment_string b) -> a = b)
  /\ (iconKind (getSentimentIcon (sentiment_string a)) = CheckCircle
      <-> a = positive).
Proof.
  intros a b. split.
  - destruct a, b; intros H; try reflexivity; vm_compute in H; discriminate H.
  - destruct a; vm_compute; split; intros H; try reflexivity; discriminate H.
Qed.

Lemma sentiments_have_distinct_colours_witness :
  iconKind (getSentimentIcon (sentiment_string positive)) = CheckCircle.
Proof.
  apply (proj2 (proj2 (sentiments_have_distinct_colours positive positive))).
  reflexivity.
Defined.

(** X18.  The page never shows two things at once: in every state it
    reaches it shows either the spinner on a disabled button and nothing
    else, or nothing, or the results card of the mock result alone, or the
    invalid-URL message alone. *)
Theorem page_shows_one_thing :
  forall (toUpperCase : jsstring -> jsstring) (w : World),
    reachable w ->
    let v := render toUpperCase (ui w) in
    (submitLabel v = Analyzing /\ submitIsDisabled v = true
     /\ errorText v = None /\ resultsCard v = None)
    \/ (submitLabel v = AnalyzeSalesCall
        /\ errorText v = None /\ resultsCard v = None)
    \/ (submitLabel v = AnalyzeSalesCall
        /\ errorText v = None
        /\ resultsCard v = Some (renderResults toUpperCase mockResult))
    \/ (submitLabel v = AnalyzeSalesCall
        /\ errorText v = Some invalidUrlMessage /\ resultsCard v = None).
Proof.
  intros up w Rw. apply reachable_invariant_full in Rw.
  destruct Rw as (_ & F & _). unfold page_faces, visible in F.
  cbv zeta. unfold render, submitDisabled.
  cbn [submitLabel submitIsDisabled errorText resultsCard].
  simpl in F. destruct F as [F|[F|[F|[F|[]]]]];
    injection F as <- <- <-.
  - right; left. repeat split.
  - left. repeat split.
  - right; right; left. repeat split.
  - right; right; right. repeat split.
Qed.

Lemma page_shows_one_thing_witness :
  submitLabel (render basic_latin_upper (ui (submit valid_a initialWorld)))
  = Analyzing.
Proof.
  destruct (@page_shows_one_thing basic_latin_upper
              (submit valid_a initialWorld))
    as [(L & _)|[(L & _ & R)|[(L & _ & R)|(L & E & _)]]].
  - exists [InputChange valid_a; FormSubmit]. reflexivity.
  - exact L.
  - reflexivity.
  - reflexivity.
  - reflexivity.
Defined.

Lemma indexed_keys {A} (l : list A) : forall i,
  map fst (indexed i l) = seq i (length l)
  /\ map snd (indexed i l) = l.
Proof.
  induction l as [|x l IH]; intros i; simpl; [split; reflexivity|].
  destruct (IH (S i)) as [K T]. rewrite K, T. split; reflexivity.
Qed.

(** X19.  The list of insights is rendered item by item, in order, and
    the keys of the items are the indices 0, 1, 2, ..., all different. *)
Theorem insight_keys_are_indices :
  forall (toUpperCase : jsstring -> jsstring) (r : AnalysisResult),
    let items := insightItems (renderResults toUpperCase r) in
    map snd items = insights r
    /\ map fst items = seq 0 (length (insights r))
    /\ NoDup (map fst items).
Proof.
  intros up r items. subst items. cbn [insightItems renderResults].
  destruct (indexed_keys (insights r) 0) as [K T].
  rewrite K, T. repeat split. apply seq_NoDup.
Qed.

Lemma number_to_string_inj z1 z2 suffix :
  JSON.ends_number suffix ->
  JSON.number_to_string z1 ++ suffix = JSON.number_to_string z2 ++ suffix ->
  z1 = z2.
Proof.
  intros E H.
  pose proof (@JSONFacts.parse_number_to_string z1 suffix E) as P1.
  pose proof (@JSONFacts.parse_number_to_string z2 suffix E) as P2.
  rewrite H in P1. congruence.
Qed.

(** X20.  The three numbers shown on the card can be read back: two
    results with safe-integer numbers whose talk-time, question and monologue texts are the same have
    the same three numbers. *)
Theorem metric_texts_determine_numbers :
  forall (toUpperCase : jsstring -> jsstring) (r1 r2 : AnalysisResult),
    representable r1 -> representable r2 ->
    talkTimeText (renderResults toUpperCase r1)
      = talkTimeText (renderResults toUpperCase r2) ->
    questionsText (renderResults toUpperCase r1)
      = questionsText (renderResults toUpperCase r2) ->
    monologueText (renderResults toUpperCase r1)
      = monologueText (renderResults toUpperCase r2) ->
    talkTimeRatio r1 = talkTimeRatio r2
    /\ questionsCount r1 = questionsCount r2
    /\ longestMonologue r1 = longestMonologue r2.
Proof.
  intros up r1 r2 _ _.
  cbn [talkTimeText questionsText monologueText renderResults].
  intros H1 H2 H3. repeat split.
  - apply (@number_to_string_inj _ _ (js "%")); [split; reflexivity | exact H1].
  - apply (@number_to_string_inj _ _ []); [exact I|].
    rewrite !app_nil_r. exact H2.
  - apply (@number_to_string_inj _ _ (js "s")); [split; reflexivity | exact H3].
Qed.

Lemma metric_texts_determine_numbers_witness :
  talkTimeRatio mockResult = talkTimeRatio (mkResult 65 12 42 negative [] [])
  /\ questionsCount mockResult
     = questionsCount (mkResult 65 12 42 negative [] [])
  /\ longestMonologue mockResult
     = longestMonologue (mkResult 65 12 42 negative [] []).
Proof.
  apply (@metric_texts_determine_numbers basic_latin_upper
           mockResult (mkResult 65 12 42 negative [] []));
    try reflexivity; unfold representable, safe_integer; cbn; lia.
Defined.
